(** * The terminal command engine of [TerminalOverlay.jsx]

    A shallow embedding of the command engine of the portfolio's terminal
    overlay (src/components/terminal/TerminalOverlay.jsx): the tokenizer,
    the command registry with its built-in handlers, [runCommand], the
    keyboard handler [onKeyDown] and the autocomplete hint effect.

    JavaScript strings are sequences of UTF-16 code units; they are modelled
    as lists of code units ([N]).  React state is an explicit record that is
    passed through every operation; the queue of state updaters issued by one
    event handler is applied in order, one event at a time. *)

From Stdlib Require Import NArith ZArith Ascii String Lia.
From stdpp Require Import gmap list sorting strings.

Open Scope N_scope.

(** ** Strings *)

Definition jsstring := list N.

(** A string literal of the source, for literals made of ASCII characters. *)
Definition js (s : string) : jsstring :=
  (fun a => N_of_ascii a) <$> list_ascii_of_string s.

(** ECMAScript WhiteSpace and LineTerminator code points: the characters that
    [\s] matches, [\S] rejects and [String.prototype.trim] strips. *)
Definition is_space (c : N) : bool :=
  (N.leb 9 c && N.leb c 13) || N.eqb c 32 || N.eqb c 160 || N.eqb c 5760
  || (N.leb 8192 c && N.leb c 8202) || N.eqb c 8232 || N.eqb c 8233
  || N.eqb c 8239 || N.eqb c 8287 || N.eqb c 12288 || N.eqb c 65279.

Fixpoint trimStart (s : jsstring) : jsstring :=
  match s with
  | [] => []
  | c :: s' => if is_space c then trimStart s' else s
  end.

Definition trimEnd (s : jsstring) : jsstring := rev (trimStart (rev s)).

(** [s.trim()] *)
Definition trim (s : jsstring) : jsstring := trimEnd (trimStart s).

(** [s.startsWith(p)] *)
Fixpoint startsWith (s p : jsstring) : bool :=
  match p, s with
  | [], _ => true
  | _ :: _, [] => false
  | a :: p', b :: s' => N.eqb a b && startsWith s' p'
  end.

(** [xs.join(sep)] *)
Fixpoint join (sep : jsstring) (xs : list jsstring) : jsstring :=
  match xs with
  | [] => []
  | [x] => x
  | x :: xs' => x ++ sep ++ join sep xs'
  end.

(** [s.includes(p)]: [p] occurs in [s] as a contiguous substring. *)
Fixpoint includes (s p : jsstring) : bool :=
  startsWith s p || match s with [] => false | _ :: s' => includes s' p end.

(** Comparison of two strings by code units, as the default comparator of
    [Array.prototype.sort] does for strings. *)
Fixpoint str_le (a b : jsstring) : bool :=
  match a, b with
  | [], _ => true
  | _ :: _, [] => false
  | x :: a', y :: b' => if N.eqb x y then str_le a' b' else N.ltb x y
  end.

(** ** The tokenizer

    [tokenize] runs a global regex over the input with [re.exec] until it
    returns null and collects [m[1] ?? m[2] ?? m[3]]. The regex has three
    alternatives, in this order: a double quote, a captured run of characters
    other than the double quote, a double quote; the same with single quotes;
    a captured non-empty run of non-whitespace ([\S+]). *)

Definition dquote : N := 34.
Definition squote : N := 39.

(** [[^q]*q] at the head of [s]: the captured text and what follows the
    closing quote, or [None] when [s] has no [q]. The class [[^q]] cannot
    consume a [q], so the greedy star stops at the first one. *)
Fixpoint quoted_body (q : N) (s : jsstring) : option (jsstring * jsstring) :=
  match s with
  | [] => None
  | c :: s' =>
      if N.eqb c q then Some ([], s')
      else match quoted_body q s' with
           | Some (body, rest) => Some (c :: body, rest)
           | None => None
           end
  end.

(** [\S*] at the head of [s]: the longest run of non-whitespace and the rest. *)
Fixpoint nonspace_run (s : jsstring) : jsstring * jsstring :=
  match s with
  | [] => ([], [])
  | c :: s' =>
      if is_space c then ([], s)
      else let '(w, rest) := nonspace_run s' in (c :: w, rest)
  end.

(** One attempt of the regex at the head of [s]; the three alternatives are
    tried in the order they are written. The result is the token pushed and
    the input from [re.lastIndex] on. *)
Definition match_here (s : jsstring) : option (jsstring * jsstring) :=
  match s with
  | [] => None
  | c :: s' =>
      let word := if is_space c then None else Some (nonspace_run s) in
      if N.eqb c dquote then
        match quoted_body dquote s' with Some r => Some r | None => word end
      else if N.eqb c squote then
        match quoted_body squote s' with Some r => Some r | None => word end
      else word
  end.

(** The [while ((m = re.exec(input)))] loop. When the regex does not match at
    the current position the search moves one code unit on. Every match
    consumes at least one code unit, so [length s] rounds are enough. *)
Fixpoint exec_loop (fuel : nat) (s : jsstring) : list jsstring :=
  match fuel with
  | O => []
  | S fuel' =>
      match s with
      | [] => []
      | _ :: s' =>
          match match_here s with
          | Some (tok, rest) => tok :: exec_loop fuel' rest
          | None => exec_loop fuel' s'
          end
      end
  end.

Definition tokenize (input : jsstring) : list jsstring :=
  exec_loop (length input) input.

(** Splitting on whitespace: the maximal runs of non-whitespace characters,
    written independently of the regex. *)
Fixpoint split_ws (cur : jsstring) (s : jsstring) : list jsstring :=
  match s with
  | [] => match cur with [] => [] | _ => [cur] end
  | c :: s' =>
      if is_space c
      then match cur with [] => split_ws [] s' | _ => cur :: split_ws [] s' end
      else split_ws (cur ++ [c]) s'
  end.

Definition is_quote (c : N) : bool := N.eqb c dquote || N.eqb c squote.

(** ** Engine state

    The React state cells of the component that the engine reads and writes.
    [opened] records the URLs handed to [window.open], oldest first; the
    window chrome (position, size, dragging, visibility, boot banner) is not
    part of the engine. *)

Record state := mkState {
  lines : list jsstring;
  input : jsstring;
  history : list jsstring;
  histIdx : Z;
  suggestion : jsstring;
  theme : jsstring;
  opened : list jsstring;
}.

Definition setLines (f : list jsstring -> list jsstring) (st : state) : state :=
  mkState (f (lines st)) (input st) (history st) (histIdx st)
          (suggestion st) (theme st) (opened st).

Definition setInput (v : jsstring) (st : state) : state :=
  mkState (lines st) v (history st) (histIdx st)
          (suggestion st) (theme st) (opened st).

Definition setHistory (f : list jsstring -> list jsstring) (st : state) : state :=
  mkState (lines st) (input st) (f (history st)) (histIdx st)
          (suggestion st) (theme st) (opened st).

Definition setHistIdx (i : Z) (st : state) : state :=
  mkState (lines st) (input st) (history st) i
          (suggestion st) (theme st) (opened st).

Definition setSuggestion (v : jsstring) (st : state) : state :=
  mkState (lines st) (input st) (history st) (histIdx st)
          v (theme st) (opened st).

Definition setTheme (t : jsstring) (st : state) : state :=
  mkState (lines st) (input st) (history st) (histIdx st)
          (suggestion st) t (opened st).

Definition windowOpen (url : jsstring) (st : state) : state :=
  mkState (lines st) (input st) (history st) (histIdx st)
          (suggestion st) (theme st) (opened st ++ [url]).

(** [appendLine(text)]: [setLines((prev) => [...prev, text])]. *)
Definition appendLine (text : jsstring) (st : state) : state :=
  setLines (fun prev => prev ++ [text]) st.

(** [h.slice(-n)] for a positive [n]: the last [n] elements, or all of [h]
    when it has fewer. *)
Definition slice_last (n : nat) (h : list jsstring) : list jsstring :=
  drop (length h - n) h.

(** ** Handlers

    A handler is modelled by what one call of it does: the state updates it
    issues, in order, and how it settles. The capability object [api] offers
    [print], [open] and [setTheme]; a built-in handler can also reach the
    component's own [setLines]. Handlers that never settle are outside the
    model. *)

Inductive api_call :=
  | ApiPrint (line : jsstring)
  | ApiOpen (url : jsstring)
  | ApiSetTheme (t : jsstring).

Inductive update :=
  | Call (c : api_call)
  | ClearLines.                    (* setLines([]) *)

(** The value a handler returns (after [await]): an array of lines, a string,
    or anything else ([undefined] included), which is not rendered. *)
Inductive result :=
  | RArray (lns : list jsstring)
  | RString (s : jsstring)
  | ROther.

(** The value a handler throws (or rejects with). JavaScript lets any value
    be thrown: an [Error] object with its [name] and [message], a string,
    [null] or [undefined] (a falsy number or boolean takes the same path),
    or any other value, which is truthy. Such a value is described by what
    the [catch] clause of [runCommand] observes of it, in the order it does
    so: first what reading its [message] property gives, then what [String]
    makes of the value that is left. Either step can run code of the value
    (a getter, a [toString] or [valueOf] method) and raise an exception of
    its own, and [String] raises a [TypeError] for an object that has no
    such method. *)
Inductive thrown :=
  | ThrownError (name message : jsstring)
  | ThrownString (s : jsstring)
  | ThrownNullish
  | ThrownOther (message : property) (text : conversion)
with property :=                     (* err.message *)
  | Falsy                            (* absent, or a falsy value *)
  | Truthy (text : conversion)       (* a truthy value, and its [String] *)
  | GetterThrows (e : thrown)
with conversion :=                   (* String(v) *)
  | Converts (s : jsstring)
  | ConversionThrows (e : thrown).

Inductive outcome :=
  | Returns (r : result)
  | Throws (e : thrown).

Definition handler := list jsstring -> list update * outcome.

(** A caller-supplied handler only has the capability object. *)
Definition user_handler := list jsstring -> list api_call * outcome.

Definition lift (h : user_handler) : handler :=
  fun args => let '(cs, o) := h args in (Call <$> cs, o).

Definition apply_call (c : api_call) (st : state) : state :=
  match c with
  | ApiPrint line => appendLine line st
  | ApiOpen url => windowOpen url st
  | ApiSetTheme t => setTheme t st
  end.

Definition apply_update (u : update) (st : state) : state :=
  match u with
  | Call c => apply_call c st
  | ClearLines => setLines (fun _ => []) st
  end.

(** The queued updates are applied in the order they were issued. *)
Definition apply_updates (us : list update) (st : state) : state :=
  foldl (fun s u => apply_update u s) st us.

(** ** The host

    What the engine takes from the JavaScript host and does not define:
    [String.prototype.toLowerCase], the two clock readings of [fmtDate()] and
    [nowHHMMSS()], and the message text of the [TypeError] the host raises
    when an inherited property of [Object.prototype] is called as a plain
    function (see [inherited]). *)

Record Host := mkHost {
  toLowerCase : jsstring -> jsstring;
  fmtDate : jsstring;
  nowHHMMSS : jsstring;
  typeErrorMessage : jsstring -> jsstring;
}.

(** Lower-casing of the letters A to Z; [toLowerCase] is this function on
    strings of ASCII characters. *)
Definition lower_ascii (c : N) : N :=
  if N.leb 65 c && N.leb c 90 then c + 32 else c.

Definition is_ascii (s : jsstring) : Prop := Forall (fun c => c < 128) s.

Definition lowers_ascii (host : Host) : Prop :=
  forall s, is_ascii s -> toLowerCase host s = lower_ascii <$> s.

(** A host whose [toLowerCase] only knows the ASCII letters, with a fixed
    clock reading and one message text for every [TypeError]; used to run
    the engine on ASCII input. *)
Definition asciiHost : Host :=
  mkHost (fun s => lower_ascii <$> s)
         (js "Jan 01, 2025") (js "12:00:00 AM")
         (fun _ => js "Cannot convert undefined or null to object").

(** [/^https?:\/\//i.test(s)]. Without the unicode flag, a character of the
    input matches a letter of the pattern when it is that letter in either
    case. *)
Fixpoint startsWith_ci (s p : jsstring) : bool :=
  match p, s with
  | [], _ => true
  | _ :: _, [] => false
  | a :: p', b :: s' => N.eqb a (lower_ascii b) && startsWith_ci s' p'
  end.

Definition has_http_scheme (s : jsstring) : bool :=
  startsWith_ci s (js "http://") || startsWith_ci s (js "https://").

Definition nonempty (s : jsstring) : bool :=
  match s with [] => false | _ => true end.

(** ** The registry and the dispatcher *)

Section Engine.

Variable host : Host.

Definition help_text : list jsstring := [
    js "Available commands:";
    js "  help                Show this help";
    js "  clear               Clear the screen";
    js "  echo <text>         Print text";
    js "  about               Who is Zeshan?";
    js "  skills              Tech stack overview";
    js "  projects            List featured projects";
    js "  contact             How to reach me";
    js "  date | time         Show current date / time";
    js "  github              Open GitHub profile";
    js "  resume              Open resume PDF";
    js "  open <url>          Open a URL";
    js "  theme <holo|dark|light>   Switch terminal theme"
  ].

Definition help : handler := fun _ => ([], Returns (RArray help_text)).

Definition clear : handler := fun _ => ([ClearLines], Returns (RString [])).

Definition echo : handler := fun args => ([], Returns (RString (join (js " ") args))).

Definition about : handler := fun _ => ([], Returns (RArray [
    js "User: Zeshan Basaran";
    js "Specialization: Pattern Recognition & Predictive Modeling";
    js "Clearance: Data Analyst / Computer Scientist";
    js "Motto: Analyzing patterns, engineering solutions, shaping the future."
  ])).

Definition skills : handler := fun _ => ([], Returns (RArray [
    js "Languages: Python, Java, Kotlin, SQL, JavaScript/TypeScript, Go (learning)";
    js "Data: pandas, scikit-learn, Plotly, Dash, Streamlit, NumPy";
    js "Web: Astro, React, Tailwind, Node, REST APIs";
    js "DB: SQLite, MySQL, Postgres";
    js "Tools: Git, Docker, Jupyter, VS Code"
  ])).

Definition projects : handler := fun _ => ([], Returns (RArray [
    js "1) Systematic Trading Backtester & Risk Monitor  " ++ [8212] ++ js "  Python + Streamlit";
    js "2) Quantitative Factor Analytics Platform        " ++ [8212] ++ js "  Python + Dash";
    js "3) Sci-Fi Portfolio (this site)                 " ++ [8212] ++ js "  Astro + Tailwind";
    js "Tip: click Projects in the top nav for interactive previews."
  ])).

Definition contact : handler := fun _ => ([], Returns (RArray [
    js "Email: zeshanbasaran@gmail.com";
    js "LinkedIn: /in/zeshanbasaran";
    js "Location: Baltimore, MD (US-ET)"
  ])).

Definition date : handler := fun _ => ([], Returns (RString (fmtDate host))).

Definition time : handler := fun _ => ([], Returns (RString (nowHHMMSS host))).

Definition github : handler := fun _ =>
  ([Call (ApiOpen (js "https://github.com/zeshanbasaran"))],
   Returns (RString (js "Opening GitHub in a new tab" ++ [8230]))).

Definition resume : handler := fun _ =>
  ([Call (ApiOpen (js "/resume.pdf"))],
   Returns (RString (js "Opening resume" ++ [8230]))).

Definition open : handler := fun args =>
  match args with
  | a0 :: _ =>
      if nonempty a0 then
        let url := if has_http_scheme a0 then a0 else js "https://" ++ a0 in
        ([Call (ApiOpen url)], Returns (RString (js "Opening " ++ url ++ [8230])))
      else ([], Returns (RString (js "Usage: open <url>")))
  | [] => ([], Returns (RString (js "Usage: open <url>")))
  end.

Definition theme_tokens : list jsstring := [js "holo"; js "dark"; js "light"].

Definition theme_usage : jsstring := js "Usage: theme <holo|dark|light>".

(** The [theme] handler; [args[0] || empty string] is [default [] (head args)]. *)
Definition theme_cmd : handler := fun args =>
  let t := toLowerCase host (default [] (head args)) in
  if bool_decide (t ∈ theme_tokens) then
    ([Call (ApiSetTheme t)], Returns (RString (js "Theme set to " ++ t ++ js ".")))
  else ([], Returns (RString theme_usage)).

Definition builtin : gmap jsstring handler :=
  list_to_map [
    (js "help", help); (js "clear", clear); (js "echo", echo);
    (js "about", about); (js "skills", skills); (js "projects", projects);
    (js "contact", contact); (js "date", date); (js "time", time);
    (js "github", github); (js "resume", resume); (js "open", open);
    (js "theme", theme_cmd)
  ].

(** [{ ...builtin, ...(userCommands || {}) }]: an entry of the caller replaces
    the built-in of the same name. *)
Definition commands (userCommands : gmap jsstring user_handler)
  : gmap jsstring handler :=
  (lift <$> userCommands) ∪ builtin.

(** [Object.keys(commands).sort()] *)
Definition commandNames (userCommands : gmap jsstring user_handler)
  : list jsstring :=
  merge_sort (fun a b => Is_true (str_le a b))
             (elements (dom (commands userCommands))).

(** [commands] is a plain object, so [commands[cmd]] also finds the
    properties it inherits from [Object.prototype]. The call
    [handler(args, api)] passes no receiver: [constructor] (the function
    [Object]) returns its argument, the array [args]; [toString] answers for
    an undefined receiver; the other methods need an object receiver and
    raise a [TypeError], as does calling the value of [__proto__], which is
    not a function. *)
Definition prototype_throwing : list jsstring := [
    js "__defineGetter__"; js "__defineSetter__"; js "hasOwnProperty";
    js "__lookupGetter__"; js "__lookupSetter__"; js "isPrototypeOf";
    js "propertyIsEnumerable"; js "valueOf"; js "__proto__";
    js "toLocaleString"
  ].

Definition inherited (key : jsstring) : option handler :=
  if bool_decide (key = js "constructor") then
    Some (fun args => ([], Returns (RArray args)))
  else if bool_decide (key = js "toString") then
    Some (fun _ => ([], Returns (RString (js "[object Undefined]"))))
  else if bool_decide (key ∈ prototype_throwing) then
    Some (fun _ => ([], Throws (ThrownError (js "TypeError")
                                            (typeErrorMessage host key))))
  else None.

(** [commands[cmd]] *)
Definition get_handler (cmds : gmap jsstring handler) (key : jsstring)
  : option handler :=
  match cmds !! key with
  | Some h => Some h
  | None => inherited key
  end.

Definition convert (c : conversion) : jsstring + thrown :=
  match c with
  | Converts s => inl s
  | ConversionThrows e => inr e
  end.

(** [String(err?.message || err || fallback)]: the text it evaluates to, or
    the exception that evaluating it raises. An [Error] object converts to
    its name when its message is empty. For any other value, a truthy
    [message] is converted and the value itself is not looked at; otherwise
    the value, which is truthy, is converted. *)
Definition catch_expr (err : thrown) : jsstring + thrown :=
  match err with
  | ThrownError name message => inl (if nonempty message then message else name)
  | ThrownString s => inl (if nonempty s then s else js "Unknown error")
  | ThrownNullish => inl (js "Unknown error")
  | ThrownOther message text =>
      match message with
      | Falsy => convert text
      | Truthy m => convert m
      | GetterThrows e => inr e
      end
  end.

(** The text of the line that the [catch] clause appends, when [catch_expr]
    evaluates to one. *)
Definition error_line (e : thrown) : jsstring :=
  match catch_expr e with
  | inl text => text
  | inr _ => []
  end.

(** The two branches that render the awaited result. *)
Definition render (r : result) : list update :=
  match r with
  | RArray lns => (fun ln => Call (ApiPrint ln)) <$> lns
  | RString s => if nonempty s then [Call (ApiPrint s)] else []
  | ROther => []
  end.

Definition not_found (cmd : jsstring) : jsstring :=
  js "Command not found: " ++ cmd ++ js ". Type 'help'.".

(** The body of the [try] block: the updates it issues and the exception that
    leaves it, if any. *)
Definition try_block (h : option handler) (cmd : jsstring) (args : list jsstring)
  : list update * option thrown :=
  match h with
  | None => ([Call (ApiPrint (not_found cmd))], None)
  | Some handle =>
      let '(us, o) := handle args in
      match o with
      | Returns r => (us ++ render r, None)
      | Throws e => (us, Some e)
      end
  end.

(** How the promise returned by [runCommand] settles: an exception that
    leaves the [catch] clause rejects it. The callers of [runCommand] drop
    the promise, so the engine goes on from the state reached. *)
Inductive settled :=
  | Fulfilled (st : state)
  | Rejected (st : state) (e : thrown).

Definition state_of (p : settled) : state :=
  match p with Fulfilled st => st | Rejected st _ => st end.

(** [const [cmd, ...args] = tokenize(raw)]; with no token [cmd] is
    [undefined], which as a property key and in the template literal reads
    [undefined]. *)
Definition destructure (toks : list jsstring) : jsstring * list jsstring :=
  match toks with
  | cmd :: args => (cmd, args)
  | [] => (js "undefined", [])
  end.

Definition echo_line (raw : jsstring) : jsstring := js "$ " ++ raw.

Definition runCommand (userCommands : gmap jsstring user_handler)
  (raw : jsstring) (st : state) : settled :=
  if nonempty (trim raw) then
    let st := appendLine (echo_line raw) st in
    let st := setHistory (fun h => slice_last 99 h ++ [raw]) st in
    let st := setHistIdx (-1) st in
    let '(cmd, args) := destructure (tokenize raw) in
    let handle := get_handler (commands userCommands) cmd in
    let '(us, exn) := try_block handle cmd args in
    let st := apply_updates us st in
    match exn with
    | None => Fulfilled st
    | Some err =>
        match catch_expr err with
        | inl text => Fulfilled (appendLine text st)
        | inr err' => Rejected st err'
        end
    end
  else Fulfilled st.

(** ** The keyboard handler and the hint effect *)

Inductive key := ArrowUp | ArrowDown | Enter | Tab | Escape | OtherKey.

(** [history[ni]]; an index outside the array reads [undefined], which the
    engine never does (see [cursor_valid_step]) and which is rendered here as
    the empty string. *)
Definition history_at (h : list jsstring) (ni : Z) : jsstring :=
  default [] (h !! Z.to_nat ni).

(** [GetSubstitution] for a regex without capture groups matched at position
    0: in the replacement text [$$] stands for a dollar sign, [$&] for the
    matched text, [$`] for the (empty) text before the match, [$'] for the
    text after it; any other dollar sign is literal. *)
Fixpoint get_substitution (matched rest repl : jsstring) : jsstring :=
  match repl with
  | [] => []
  | c :: r =>
      if N.eqb c 36 then
        match r with
        | [] => [c]
        | d :: r' =>
            if N.eqb d 36 then 36 :: get_substitution matched rest r'
            else if N.eqb d 38 then matched ++ get_substitution matched rest r'
            else if N.eqb d 96 then get_substitution matched rest r'
            else if N.eqb d 39 then rest ++ get_substitution matched rest r'
            else c :: get_substitution matched rest r
        end
      else c :: get_substitution matched rest r
  end.

(** [input.replace(/^\S+/, repl)]: the regex only matches a run of
    non-whitespace that starts the string. *)
Definition replace_leading_word (inp repl : jsstring) : jsstring :=
  match nonspace_run inp with
  | ([], _) => inp
  | (w, rest) => get_substitution w rest repl ++ rest
  end.

(** [commandNames.filter((c) => c.startsWith(tok))] *)
Definition matching (names : list jsstring) (tok : jsstring) : list jsstring :=
  List.filter (fun c => startsWith c tok) names.

Definition onKeyDown (userCommands : gmap jsstring user_handler)
  (k : key) (st : state) : state :=
  match k with
  | ArrowUp =>
      match history st with
      | [] => st
      | _ :: _ =>
          let ni := if (histIdx st <? 0)%Z
                    then (Z.of_nat (length (history st)) - 1)%Z
                    else Z.max 0 (histIdx st - 1) in
          setInput (history_at (history st) ni) (setHistIdx ni st)
      end
  | ArrowDown =>
      if (histIdx st <? 0)%Z then st
      else
        let ni := (histIdx st + 1)%Z in
        if (ni >=? Z.of_nat (length (history st)))%Z
        then setInput [] (setHistIdx (-1) st)
        else setInput (history_at (history st) ni) (setHistIdx ni st)
  | Enter =>
      let val := input st in
      state_of (runCommand userCommands val (setSuggestion [] (setInput [] st)))
  | Tab =>
      match tokenize (input st) with
      | [] => st
      | tok :: _ =>
          if nonempty tok then
            match matching (commandNames userCommands) tok with
            | [] => st
            | [m] =>
                setSuggestion []
                  (setInput (replace_leading_word (input st) m) st)
            | ms => setSuggestion (join (js "  ") ms) st
            end
          else st
      end
  | Escape => st
  | OtherKey => st
  end.

(** The value the hint effect stores in [suggestion]. *)
Definition hint (userCommands : gmap jsstring user_handler) (inp : jsstring)
  : jsstring :=
  match tokenize inp with
  | [] => []
  | tok :: _ =>
      if nonempty tok then
        match matching (commandNames userCommands) tok with
        | [m] => m
        | _ => []
        end
      else []
  end.

(** The events of the input element. *)
Inductive event :=
  | KeyDown (k : key)
  | Change (value : jsstring).       (* onChange: setInput(e.target.value) *)

Definition handle (userCommands : gmap jsstring user_handler)
  (ev : event) (st : state) : state :=
  match ev with
  | KeyDown k => onKeyDown userCommands k st
  | Change v => setInput v st
  end.

(** One event: the handler runs, then the effect with dependencies
    [[input, commandNames]] runs if the render sees a different [input]. *)
Definition step (userCommands : gmap jsstring user_handler)
  (ev : event) (st : state) : state :=
  let st' := handle userCommands ev st in
  if bool_decide (input st' = input st) then st'
  else setSuggestion (hint userCommands (input st')) st'.

Definition steps (userCommands : gmap jsstring user_handler)
  (evs : list event) (st : state) : state :=
  foldl (fun s ev => step userCommands ev s) st evs.

(** Typing [raw] into the input and pressing Enter. *)
Definition submit (userCommands : gmap jsstring user_handler)
  (raw : jsstring) (st : state) : state :=
  steps userCommands [Change raw; KeyDown Enter] st.

End Engine.

(** ** Construction

    The props of the component that are data. None of them is a history
    bound: the bound is the constant in [runCommand]. *)

Record Props := mkProps {
  isOpen : option bool;
  title : jsstring;
  initialLines : list jsstring;
  userCommandsOf : gmap jsstring user_handler;    (* commands *)
  hotkey : jsstring;
  startTheme : jsstring;
  defaultPosition : Z * Z;
  defaultSize : Z * Z;
}.

Definition defaultProps : Props :=
  mkProps None (js "ACCESS TERMINAL")
          [js "Type 'help' to list commands.";
           js "Try: projects, skills, about, theme holo"]
          ∅ (js "Ctrl+`") (js "holo") (64, 64)%Z (820, 420)%Z.

(** The state cells as [React.useState] initialises them. *)
Definition init (p : Props) : state :=
  mkState [] [] [] (-1) [] (startTheme p) [].

(** Calling [runCommand] on each line in turn, from the initial state. *)
Definition run_all (host : Host) (p : Props) (raws : list jsstring) : state :=
  foldl (fun st raw => state_of (runCommand host (userCommandsOf p) raw st))
        (init p) raws.

(** A token ends at the end of the input or in front of whitespace. *)
Definition at_boundary (rest : jsstring) : Prop :=
  match rest with
  | [] => True
  | r :: _ => is_space r = true
  end.

Definition no_space (w : jsstring) : Prop := Forall (fun c => is_space c = false) w.

Definition no_quote (s : jsstring) : Prop := Forall (fun c => is_quote c = false) s.

(** ** One submission, in two parts

    [runCommand] on a line that is not blank first records the submission
    and then dispatches; [dispatch] collects the updates of the [try] block
    and of the [catch] clause, [rejection] is the exception that leaves the
    [catch] clause, if any. *)

Definition record_submission (raw : jsstring) (st : state) : state :=
  setHistIdx (-1)
    (setHistory (fun h => slice_last 99 h ++ [raw])
       (appendLine (echo_line raw) st)).

Definition dispatch (host : Host) (userCommands : gmap jsstring user_handler)
  (raw : jsstring) : list update :=
  let '(cmd, args) := destructure (tokenize raw) in
  let '(us, exn) :=
    try_block (get_handler host (commands host userCommands) cmd) cmd args in
  us ++ match exn with
        | None => []
        | Some err =>
            match catch_expr err with
            | inl text => [Call (ApiPrint text)]
            | inr _ => []
            end
        end.

Definition rejection (host : Host) (userCommands : gmap jsstring user_handler)
  (raw : jsstring) : option thrown :=
  let '(cmd, args) := destructure (tokenize raw) in
  let '(us, exn) :=
    try_block (get_handler host (commands host userCommands) cmd) cmd args in
  match exn with
  | None => None
  | Some err =>
      match catch_expr err with
      | inl _ => None
      | inr err' => Some err'
      end
  end.

Definition settle (r : option thrown) (st : state) : settled :=
  match r with
  | None => Fulfilled st
  | Some e => Rejected st e
  end.

(** The lines that a list of updates prints. *)
Definition printed (us : list update) : list jsstring :=
  flat_map (fun u => match u with Call (ApiPrint ln) => [ln] | _ => [] end) us.

(** The message text an exception carries: the [message] of an [Error], the
    thrown string itself, or the text of the [message] of another value. *)
Definition message_text (e : thrown) : jsstring :=
  match e with
  | ThrownError _ message => message
  | ThrownString s => s
  | ThrownNullish => []
  | ThrownOther (Truthy (Converts s)) _ => s
  | ThrownOther _ _ => []
  end.

(** An exception that the [catch] clause can turn into a line. *)
Definition renderable (e : thrown) : Prop :=
  exists text, catch_expr e = inl text.

(** The names that every plain object inherits from [Object.prototype]. *)
Definition object_prototype_names : list jsstring :=
  js "constructor" :: js "toString" :: prototype_throwing.

(** Sample caller-supplied registries: one added command that returns
    nothing, and one that throws. *)
Definition fooCommands : gmap jsstring user_handler :=
  {[ js "foo" := fun _ => ([], Returns ROther) ]}.

Definition boomCommands : gmap jsstring user_handler :=
  {[ js "boom" := fun _ => ([], Throws (ThrownError (js "Error") (js "kaboom"))) ]}.

(** An object without a prototype, as [Object.create(null)] makes it. It
    has no [message], and [String] finds neither [toString] nor [valueOf] on
    it and raises a [TypeError], whose message text [msg] is the host's. *)
Definition nullPrototypeObject (msg : jsstring) : thrown :=
  ThrownOther Falsy (ConversionThrows (ThrownError (js "TypeError") msg)).

(** A caller-supplied command that throws such an object. *)
Definition crashCommands (msg : jsstring) : gmap jsstring user_handler :=
  {[ js "crash" := fun _ => ([], Throws (nullPrototypeObject msg)) ]}.


(** A caller-supplied registry that adds the command history. *)
Definition historyCommands : gmap jsstring user_handler :=
  {[ js "history" := fun _ => ([], Returns ROther) ]}.

(** ** The sibling hook

    src/components/terminal/useTerminal.ts is a second copy of the engine,
    written as a hook. What its [runCommand] records differs from the
    component: the line is trimmed first, and the history bound is the option
    [historyMax] (100 when it is not given). *)

Module UseTerminal.

(** [prev.slice(start)] *)
Definition slice_from (start : Z) (prev : list jsstring) : list jsstring :=
  let len := Z.of_nat (length prev) in
  let k := if (start <? 0)%Z then Z.max (len + start) 0 else Z.min start len in
  drop (Z.to_nat k) prev.

(** [[...prev.slice(-historyMax + 1), trimmed]] *)
Definition push_history (historyMax : Z) (prev : list jsstring) (raw : jsstring)
  : list jsstring :=
  slice_from (- historyMax + 1) prev ++ [trim raw].

Definition echoed (raw : jsstring) : jsstring := js "$ " ++ trim raw.

End UseTerminal.

(** ** Rendering a line

    The [Line] component turns one scrollback line into HTML: it escapes the
    ampersand and the angle brackets, in three passes, and then wraps every
    match of the link regex into an anchor. *)

(** [s.replace(/c/g, repl)] for one character [c] and a replacement text
    without dollar signs. *)
Definition replace_all_char (c : N) (repl : jsstring) (s : jsstring) : jsstring :=
  flat_map (fun x => if N.eqb x c then repl else [x]) s.

Definition esc (text : jsstring) : jsstring :=
  replace_all_char 62 (js "&gt;")
    (replace_all_char 60 (js "&lt;")
       (replace_all_char 38 (js "&amp;") text)).

(** The class [[^\s)]] of the link regex. *)
Definition url_char (c : N) : bool := negb (is_space c) && negb (N.eqb c 41).

(** [[^\s)]*] at the head of [s]. *)
Fixpoint url_run (s : jsstring) : jsstring * jsstring :=
  match s with
  | [] => ([], [])
  | c :: s' =>
      if url_char c then let '(u, rest) := url_run s' in (c :: u, rest)
      else ([], s)
  end.

(** A literal prefix followed by [[^\s)]+]: the match and the rest. *)
Definition prefixed_url (prefix s : jsstring) : option (jsstring * jsstring) :=
  if startsWith s prefix then
    match url_run (drop (length prefix) s) with
    | ([], _) => None
    | (u, rest) => Some (prefix ++ u, rest)
    end
  else None.

(** One attempt of the link regex at the head of [s]: [https?://] and a
    non-empty run, or else [www.] and a non-empty run. *)
Definition link_here (s : jsstring) : option (jsstring * jsstring) :=
  match prefixed_url (js "https://") s with
  | Some r => Some r
  | None =>
      match prefixed_url (js "http://") s with
      | Some r => Some r
      | None => prefixed_url (js "www.") s
      end
  end.

(** The replacer function: the anchor for the match [m]. *)
Definition anchor (m : jsstring) : jsstring :=
  js "<a href=" ++ [34]
  ++ (if startsWith m (js "http://") || startsWith m (js "https://")
      then m else js "https://" ++ m)
  ++ [34] ++ js " target=" ++ [34] ++ js "_blank" ++ [34]
  ++ js " rel=" ++ [34] ++ js "noopener noreferrer" ++ [34]
  ++ js " class=" ++ [34]
  ++ js "underline decoration-dotted hover:text-sky-300" ++ [34]
  ++ js ">" ++ m ++ js "</a>".

(** The global replace: every match is consumed whole, any other character
    is copied. *)
Fixpoint linkify_loop (fuel : nat) (s : jsstring) : jsstring :=
  match fuel with
  | O => []
  | S fuel' =>
      match s with
      | [] => []
      | c :: s' =>
          match link_here s with
          | Some (m, rest) => anchor m ++ linkify_loop fuel' rest
          | None => c :: linkify_loop fuel' s'
          end
      end
  end.

Definition linkify (s : jsstring) : jsstring := linkify_loop (length s) s.

(** The HTML of [Line]; an empty text renders as the empty string. *)
Definition Line (text : jsstring) : jsstring :=
  if nonempty text then linkify (esc text) else [].

(** ** The typewriter and the boot banner

    [appendType] appends [text.slice(0, i + 1)] with [appendLine] on every
    tick, for [i] from 0 while [i < text.length]; the first tick always runs.
    The lines it appends are given for a run that no other update
    interleaves with. *)

Fixpoint tick (fuel : nat) (text : jsstring) (i : nat) : list jsstring :=
  match fuel with
  | O => []
  | S fuel' =>
      take (i + 1) text ::
        (if (i + 1 <? length text)%nat then tick fuel' text (i + 1) else [])
  end.

Definition typed_lines (text : jsstring) : list jsstring :=
  tick (S (length text)) text 0.

Definition appendType (text : jsstring) (st : state) : state :=
  foldl (fun s ln => appendLine ln s) st (typed_lines text).

Definition banner : list jsstring := [
    js ">> INITIALIZING NEURAL INTERFACE" ++ [8230];
    js ">> HANDSHAKE OK.";
    js ">> ACCESS GRANTED."
  ].

(** The [boot] function of the boot effect, run to its end. *)
Definition boot (p : Props) (st : state) : state :=
  foldl (fun s ln => appendType ln s)
        (appendLine [] (foldl (fun s ln => appendType ln s) st banner))
        (initialLines p).

(** ** Copying the scrollback

    [copyAll] hands [lines.join] with a line feed to the clipboard and
    appends a notice that says whether the clipboard took it. The result is
    the text handed over and the new state. *)
Definition copy_notice (clipboardOk : bool) : jsstring :=
  if clipboardOk then js "[copied scrollback to clipboard]"
  else js "[copy failed " ++ [8212] ++ js " permissions?]".

Definition copyAll (clipboardOk : bool) (st : state) : jsstring * state :=
  (join [10] (lines st), appendLine (copy_notice clipboardOk) st).

(** ** The window

    Position, size and drag state of the overlay window, and its visibility.
    Pixel coordinates are taken as integers. *)

Record DragState := mkDragState {
  startX : Z; startY : Z;
  origX : Z; origY : Z;
  boundsW : Z; boundsH : Z;
  rectW : Z; rectH : Z;
}.

Record window := mkWindow {
  internalOpen : bool;
  pos : Z * Z;
  size : Z * Z;
  dragState : option DragState;
}.

(** [Math.max(min, Math.min(max, v))] *)
Definition clamp (v min max : Z) : Z := Z.max min (Z.min max v).

(** [rect] is the bounding box of the window element, when it is mounted. *)
Definition onDragStart (open_now : bool) (clientX clientY : Z)
  (rect : option (Z * Z)) (innerWidth innerHeight : Z) (w : window) : window :=
  if open_now then
    mkWindow (internalOpen w) (pos w) (size w)
      (Some (mkDragState clientX clientY (fst (pos w)) (snd (pos w))
               innerWidth innerHeight
               (match rect with Some r => fst r | None => fst (size w) end)
               (match rect with Some r => snd r | None => snd (size w) end)))
  else w.

Definition onDragMove (clientX clientY : Z) (w : window) : window :=
  match dragState w with
  | None => w
  | Some d =>
      let dx := (clientX - startX d)%Z in
      let dy := (clientY - startY d)%Z in
      let nx := clamp (origX d + dx) (8 - rectW d) (boundsW d - 8) in
      let ny := clamp (origY d + dy) 8 (boundsH d - 48) in
      mkWindow (internalOpen w) (nx, ny) (size w) (dragState w)
  end.

Definition onDragEnd (w : window) : window :=
  mkWindow (internalOpen w) (pos w) (size w) None.

(** The window as [React.useState] initialises it. *)
Definition initWindow (p : Props) : window :=
  mkWindow true (defaultPosition p) (defaultSize p) None.

(** [isControlled] and the derived [isOpen] of the component. *)
Definition isControlled (p : Props) : bool :=
  match isOpen p with Some _ => true | None => false end.

Definition isOpenNow (p : Props) (w : window) : bool :=
  match isOpen p with Some b => b | None => internalOpen w end.

(** [/re/i.test(s)] for a pattern of literal characters, given in lower
    case. *)
Fixpoint test_ci (s p : jsstring) : bool :=
  startsWith_ci s p || match s with [] => false | _ :: s' => test_ci s' p end.

Definition wantCtrl (p : Props) : bool := test_ci (hotkey p) (js "ctrl+`").

(** The [keydown] handler of the hotkey effect. [onClose] tells whether the
    caller passed the callback; the result counts the calls made to it. *)
Definition hotkeyHandler (p : Props) (onClose : bool)
  (key : jsstring) (ctrlKey : bool) (w : window) : window * nat :=
  let isBacktick := bool_decide (key = js "`") in
  let ok := isBacktick && eqb ctrlKey (wantCtrl p) in
  if ok then
    match isOpen p with
    | Some b => (w, if b && onClose then 1%nat else 0%nat)
    | None =>
        (mkWindow (negb (internalOpen w)) (pos w) (size w) (dragState w), 0%nat)
    end
  else (w, 0%nat).

(** [handleClose], reached by Escape, the Close button and a click on the
    backdrop. *)
Definition handleClose (p : Props) (onClose : bool) (w : window) : window * nat :=
  (if isControlled p then w
   else mkWindow false (pos w) (size w) (dragState w),
   if onClose then 1%nat else 0%nat).

(** A token that needs no quoting: not empty, without whitespace and without
    quote characters. *)
Definition plain_token (t : jsstring) : Prop :=
  t <> [] /\ no_space t /\ no_quote t.

(** The lines a returned value adds to the scrollback. *)
Definition result_lines (r : result) : list jsstring :=
  match r with
  | RArray lns => lns
  | RString s => if nonempty s then [s] else []
  | ROther => []
  end.



(** What escaping makes of one character. *)
Definition entity (c : N) : jsstring :=
  if N.eqb c 38 then js "&amp;"
  else if N.eqb c 60 then js "&lt;"
  else if N.eqb c 62 then js "&gt;"
  else [c].

(** A link ends at the end of the text, at whitespace or at a closing
    parenthesis. *)
Definition url_boundary (rest : jsstring) : Prop :=
  match rest with
  | [] => True
  | r :: _ => url_char r = false
  end.

Definition link_prefixes : list jsstring :=
  [js "http://"; js "https://"; js "www."].

(** ** Invariants of the state *)

(** The cursor is the sentinel or indexes an entry of the history. *)
Definition cursor_valid (st : state) : Prop :=
  histIdx st = (-1)%Z \/
  (0 <= histIdx st < Z.of_nat (length (history st)))%Z.

(** The history holds at most 100 entries. *)
Definition history_bounded (st : state) : Prop :=
  (length (history st) <= 100)%nat.

(** ** Proof automation *)

(** A list of updates that is empty or a single call does not clear. *)
Ltac no_clear :=
  first [ apply not_elem_of_nil
        | let Hx := fresh in
          intros Hx; apply list_elem_of_singleton in Hx; discriminate Hx ].

(** Normalise the right-hand side of an equation in a hypothesis. *)
Ltac norm_rhs H :=
  match type of H with
  | _ = ?rhs => let r := eval vm_compute in rhs in change rhs with r in H
  end.

(** * Properties *)

(** ** Whitespace and [trim] *)

Lemma forallb_rev {A} (f : A -> bool) (l : list A) :
  forallb f (rev l) = forallb f l.
Proof.
  induction l as [|a l IH]; simpl; [reflexivity|].
  rewrite forallb_app, IH. simpl. rewrite andb_true_r. apply andb_comm.
Qed.

Lemma trimStart_nil_iff s : trimStart s = [] <-> forallb is_space s = true.
Proof.
  induction s as [|c s IH]; simpl; [tauto|].
  destruct (is_space c); simpl; [exact IH|]. split; discriminate.
Qed.

Lemma forallb_trimStart s :
  forallb is_space (trimStart s) = forallb is_space s.
Proof.
  induction s as [|c s IH]; simpl; [reflexivity|].
  destruct (is_space c) eqn:E; simpl; [exact IH|]. now rewrite E.
Qed.

Lemma trim_nil_iff s : trim s = [] <-> forallb is_space s = true.
Proof.
  unfold trim, trimEnd. split.
  - intros H. apply (f_equal (@rev N)) in H. rewrite rev_involutive in H.
    simpl in H. apply trimStart_nil_iff in H.
    rewrite forallb_rev, forallb_trimStart in H. exact H.
  - intros H. rewrite <- forallb_trimStart, <- forallb_rev in H.
    apply trimStart_nil_iff in H. now rewrite H.
Qed.

(** [!raw.trim()] holds exactly for the lines made of whitespace only. *)
Lemma blank_iff raw : nonempty (trim raw) = false <-> forallb is_space raw = true.
Proof.
  rewrite <- trim_nil_iff. destruct (trim raw); simpl; split; congruence.
Qed.

Lemma nonblank_iff raw : nonempty (trim raw) = true <-> forallb is_space raw = false.
Proof.
  pose proof (blank_iff raw) as H.
  destruct (nonempty (trim raw)), (forallb is_space raw); intuition congruence.
Qed.

(** ** The tokenizer terminates within its fuel *)

Lemma quoted_body_spec q s body rest :
  quoted_body q s = Some (body, rest) ->
  s = body ++ q :: rest /\ q ∉ body.
Proof.
  revert body rest. induction s as [|c s IH]; intros body rest; simpl; [discriminate|].
  destruct (N.eqb_spec c q) as [->|Hne].
  - intros [= <- <-]. split; [reflexivity|]. apply not_elem_of_nil.
  - destruct (quoted_body q s) as [[b r]|]; [|discriminate].
    intros [= <- <-]. destruct (IH b r eq_refl) as [-> Hb]. split; [reflexivity|].
    rewrite elem_of_cons. intros [E|E]; [congruence | contradiction].
Qed.

Lemma quoted_body_found q body rest :
  q ∉ body -> quoted_body q (body ++ q :: rest) = Some (body, rest).
Proof.
  induction body as [|c body IH]; simpl; intros Hq.
  - now rewrite N.eqb_refl.
  - rewrite not_elem_of_cons in Hq. destruct Hq as [Hc Hq].
    destruct (N.eqb_spec c q) as [E|_]; [congruence|]. now rewrite IH.
Qed.

Lemma quoted_body_none q s : q ∉ s -> quoted_body q s = None.
Proof.
  induction s as [|c s IH]; simpl; intros Hq; [reflexivity|].
  rewrite not_elem_of_cons in Hq. destruct Hq as [Hc Hq].
  destruct (N.eqb_spec c q) as [E|_]; [congruence|]. now rewrite IH.
Qed.

Lemma nonspace_run_spec s w rest :
  nonspace_run s = (w, rest) ->
  s = w ++ rest /\ forallb is_space w = false \/ s = w ++ rest /\ w = [].
Proof.
  destruct s as [|c s]; simpl.
  - intros [= <- <-]. now right.
  - destruct (is_space c) eqn:E.
    + intros [= <- <-]. now right.
    + destruct (nonspace_run s) as [w' r'] eqn:E'. intros [= <- <-]. left.
      split; [|simpl; now rewrite E].
      clear E. revert c w' r' E'. induction s as [|d s IH]; intros c w' r'; simpl.
      * now intros [= <- <-].
      * destruct (is_space d); [now intros [= <- <-]|].
        destruct (nonspace_run s) as [w2 r2] eqn:E2. intros [= <- <-].
        simpl. f_equal. now apply (IH d w2 r2).
Qed.

Lemma nonspace_run_app s w rest : nonspace_run s = (w, rest) -> s = w ++ rest.
Proof. intros H. destruct (nonspace_run_spec _ _ _ H) as [[? _]|[? _]]; assumption. Qed.

Lemma match_here_shorter s tok rest :
  match_here s = Some (tok, rest) -> (length rest < length s)%nat.
Proof.
  destruct s as [|c s]; [discriminate|].
  assert (Hword : (if is_space c then None else Some (nonspace_run (c :: s)))
                  = Some (tok, rest) -> (length rest < length (c :: s))%nat).
  { destruct (is_space c) eqn:E; [discriminate|]. intros H0.
    assert (H : nonspace_run (c :: s) = (tok, rest)) by congruence.
    pose proof (nonspace_run_app _ _ _ H) as Happ.
    simpl in H. rewrite E in H. destruct (nonspace_run s) as [w' r'].
    injection H as <- <-. rewrite Happ. simpl. rewrite length_app. lia. }
  assert (Hq : forall q, quoted_body q s = Some (tok, rest) ->
                         (length rest < length (c :: s))%nat).
  { intros q H. destruct (quoted_body_spec _ _ _ _ H) as [-> _].
    simpl. rewrite length_app. simpl. lia. }
  unfold match_here.
  destruct (N.eqb c dquote).
  - destruct (quoted_body dquote s) as [[b r]|] eqn:E; [|exact Hword].
    intros [= <- <-]. exact (Hq _ E).
  - destruct (N.eqb c squote); [|exact Hword].
    destruct (quoted_body squote s) as [[b r]|] eqn:E; [|exact Hword].
    intros [= <- <-]. exact (Hq _ E).
Qed.

Lemma exec_loop_fuel n m s :
  (length s <= n)%nat -> (length s <= m)%nat -> exec_loop n s = exec_loop m s.
Proof.
  revert m s. induction n as [|n IH]; intros m s Hn Hm.
  - destruct s; [|simpl in Hn; lia]. now destruct m.
  - destruct m as [|m]; [destruct s; [reflexivity | simpl in Hm; lia]|].
    destruct s as [|c s]; [reflexivity|].
    cbn [exec_loop]. destruct (match_here (c :: s)) as [[tok rest]|] eqn:E.
    + apply match_here_shorter in E. simpl in *. f_equal. apply IH; lia.
    + simpl in *. apply IH; lia.
Qed.

(** The loop equation of [tokenize]: the fuel never runs out. *)
Lemma tokenize_cons c s :
  tokenize (c :: s) =
    match match_here (c :: s) with
    | Some (tok, rest) => tok :: tokenize rest
    | None => tokenize s
    end.
Proof.
  unfold tokenize. cbn [exec_loop length].
  destruct (match_here (c :: s)) as [[tok rest]|] eqn:E.
  - apply match_here_shorter in E. simpl in E. f_equal. apply exec_loop_fuel; lia.
  - reflexivity.
Qed.

(** ** What the tokenizer computes *)

Lemma is_quote_cases q : is_quote q = true -> q = dquote \/ q = squote.
Proof.
  unfold is_quote. destruct (N.eqb_spec q dquote); [now left|].
  destruct (N.eqb_spec q squote); [now right | discriminate].
Qed.

Lemma space_not_quote c : is_space c = true -> is_quote c = false.
Proof.
  intros H. destruct (is_quote c) eqn:E; [|reflexivity].
  destruct (is_quote_cases _ E) as [-> | ->]; discriminate H.
Qed.

Lemma match_here_plain c s :
  is_quote c = false ->
  match_here (c :: s) =
    if is_space c then None else Some (nonspace_run (c :: s)).
Proof.
  unfold is_quote, match_here. intros H. apply orb_false_elim in H as [-> ->].
  reflexivity.
Qed.

Lemma match_here_quote q s :
  is_quote q = true ->
  match_here (q :: s) =
    match quoted_body q s with
    | Some r => Some r
    | None => Some (nonspace_run (q :: s))
    end.
Proof.
  intros H. assert (Hs : is_space q = false).
  { destruct (is_space q) eqn:E; [|reflexivity].
    apply space_not_quote in E. congruence. }
  destruct (is_quote_cases _ H) as [-> | ->]; unfold match_here;
    change (is_space dquote) with false; change (is_space squote) with false;
    reflexivity.
Qed.

Lemma tokenize_space c s : is_space c = true -> tokenize (c :: s) = tokenize s.
Proof.
  intros H. rewrite tokenize_cons, match_here_plain by now apply space_not_quote.
  now rewrite H.
Qed.

Lemma tokenize_quoted q body rest :
  is_quote q = true -> q ∉ body ->
  tokenize (q :: body ++ q :: rest) = body :: tokenize rest.
Proof.
  intros Hq Hb. rewrite tokenize_cons, match_here_quote by assumption.
  now rewrite quoted_body_found.
Qed.

Lemma nonspace_run_word w rest :
  no_space w -> at_boundary rest -> nonspace_run (w ++ rest) = (w, rest).
Proof.
  intros Hw Hr. induction Hw as [|c w Hc Hw IH]; simpl.
  - destruct rest as [|r rest]; [reflexivity|]. simpl in *. now rewrite Hr.
  - now rewrite Hc, IH.
Qed.

Lemma nonspace_run_boundary s w rest :
  nonspace_run s = (w, rest) -> no_space w /\ at_boundary rest.
Proof.
  revert w rest. induction s as [|c s IH]; intros w rest; simpl.
  - intros [= <- <-]. split; [constructor | exact I].
  - destruct (is_space c) eqn:E.
    + intros [= <- <-]. split; [constructor | exact E].
    + destruct (nonspace_run s) as [w' r']. intros [= <- <-].
      destruct (IH w' r' eq_refl) as [Hw Hr]. split; [now constructor | exact Hr].
Qed.

Lemma tokenize_word c w rest :
  is_space c = false -> no_space w -> at_boundary rest ->
  (is_quote c = true -> c ∉ w ++ rest) ->
  tokenize (c :: w ++ rest) = (c :: w) :: tokenize rest.
Proof.
  intros Hc Hw Hr Hq. rewrite tokenize_cons.
  assert (Hrun : nonspace_run (c :: w ++ rest) = (c :: w, rest)).
  { apply (nonspace_run_word (c :: w) rest); [now constructor | exact Hr]. }
  destruct (is_quote c) eqn:E.
  - rewrite match_here_quote, quoted_body_none, Hrun by auto. reflexivity.
  - rewrite match_here_plain, Hc, Hrun by assumption. reflexivity.
Qed.

Lemma split_ws_run cur s w rest :
  nonspace_run s = (w, rest) -> split_ws cur s = split_ws (cur ++ w) rest.
Proof.
  revert cur w rest. induction s as [|c s IH]; intros cur w rest; simpl.
  - intros [= <- <-]. now rewrite app_nil_r.
  - destruct (is_space c) eqn:E.
    + intros [= <- <-]. rewrite app_nil_r. simpl. now rewrite E.
    + destruct (nonspace_run s) as [w' r'] eqn:E'. intros [= <- <-].
      rewrite (IH (cur ++ [c]) w' r' eq_refl), <- app_assoc. reflexivity.
Qed.

(** Without quote characters the tokens are the whitespace-separated words. *)
Lemma tokenize_no_quote s : no_quote s -> tokenize s = split_ws [] s.
Proof.
  remember (length s) as n eqn:Hn. revert s Hn.
  induction n as [n IH] using lt_wf_ind. intros s -> Hs.
  destruct s as [|c s]; [reflexivity|].
  apply Forall_cons in Hs as [Hc Hs].
  rewrite tokenize_cons, match_here_plain by assumption.
  destruct (is_space c) eqn:E.
  - simpl. rewrite E. apply (IH (length s)); [simpl; lia | reflexivity | exact Hs].
  - destruct (nonspace_run (c :: s)) as [w rest] eqn:Hrun.
    pose proof (nonspace_run_app _ _ _ Hrun) as Happ.
    pose proof (nonspace_run_boundary _ _ _ Hrun) as [_ Hb].
    rewrite (split_ws_run [] _ _ _ Hrun). simpl app.
    assert (Hw : exists w', w = c :: w').
    { simpl in Hrun. rewrite E in Hrun. destruct (nonspace_run s) as [w' r'].
      injection Hrun as <- <-. now exists w'. }
    destruct Hw as [w' ->].
    assert (Hrest : no_quote rest).
    { assert (Hall : no_quote (c :: s)) by now constructor.
      rewrite Happ in Hall. now apply Forall_app in Hall as [_ ?]. }
    assert (Hlen : (length rest < length (c :: s))%nat).
    { rewrite Happ, length_app. simpl. lia. }
    rewrite (IH (length rest) Hlen rest eq_refl Hrest).
    destruct rest as [|r rest]; [reflexivity|].
    simpl in Hb. simpl. now rewrite Hb.
Qed.

(** A line of whitespace has no token, and a line with a token is not blank. *)
Lemma tokenize_blank s : forallb is_space s = true -> tokenize s = [].
Proof.
  induction s as [|c s IH]; simpl; [reflexivity|].
  intros H. apply andb_prop in H as [Hc Hs]. rewrite tokenize_space by exact Hc.
  now apply IH.
Qed.

Lemma tokenize_nonblank raw tok toks :
  tokenize raw = tok :: toks -> nonempty (trim raw) = true.
Proof.
  intros H. apply nonblank_iff. destruct (forallb is_space raw) eqn:E; [|reflexivity].
  rewrite (tokenize_blank _ E) in H. discriminate.
Qed.

(** A line that is not blank has a first token. *)
Lemma nonblank_tokenize raw :
  forallb is_space raw = false -> exists tok toks, tokenize raw = tok :: toks.
Proof.
  induction raw as [|c raw IH]; simpl; [discriminate|].
  destruct (is_space c) eqn:E; simpl.
  - intros H. rewrite tokenize_space by exact E. now apply IH.
  - intros _. rewrite tokenize_cons.
    destruct (is_quote c) eqn:Eq.
    + rewrite match_here_quote by exact Eq.
      destruct (quoted_body c raw) as [[b r]|]; [now eauto|].
      destruct (nonspace_run (c :: raw)); now eauto.
    + rewrite match_here_plain, E by exact Eq.
      destruct (nonspace_run (c :: raw)); now eauto.
Qed.

(** ** Updates and the state cells *)

Lemma apply_updates_app us vs st :
  apply_updates (us ++ vs) st = apply_updates vs (apply_updates us st).
Proof. apply foldl_app. Qed.

Lemma apply_updates_frame us st :
  history (apply_updates us st) = history st /\
  histIdx (apply_updates us st) = histIdx st /\
  input (apply_updates us st) = input st /\
  suggestion (apply_updates us st) = suggestion st.
Proof.
  revert st. induction us as [|u us IH]; intros st; [now repeat split|].
  change (apply_updates (u :: us) st) with (apply_updates us (apply_update u st)).
  destruct (IH (apply_update u st)) as (-> & -> & -> & ->).
  destruct u as [[ | | ]|]; now repeat split.
Qed.

Lemma lines_apply_updates us st :
  ClearLines ∉ us -> lines (apply_updates us st) = lines st ++ printed us.
Proof.
  revert st. induction us as [|u us IH]; intros st Hc.
  - simpl. now rewrite app_nil_r.
  - apply not_elem_of_cons in Hc as [Hu Hc].
    change (apply_updates (u :: us) st) with (apply_updates us (apply_update u st)).
    rewrite IH by exact Hc. destruct u as [[ln| |]|]; simpl; try reflexivity.
    + now rewrite <- app_assoc.
    + congruence.
Qed.

(** ** [runCommand] is record, then dispatch *)

Lemma runCommand_blank host user raw st :
  nonempty (trim raw) = false -> runCommand host user raw st = Fulfilled st.
Proof. unfold runCommand. now intros ->. Qed.

Lemma runCommand_nonblank host user raw st :
  nonempty (trim raw) = true ->
  runCommand host user raw st =
    settle (rejection host user raw)
      (apply_updates (dispatch host user raw) (record_submission raw st)).
Proof.
  unfold runCommand, dispatch, rejection, record_submission. intros ->.
  destruct (destructure (tokenize raw)) as [cmd args].
  destruct (try_block _ cmd args) as [us [err|]].
  - destruct (catch_expr err) as [text|err'].
    + rewrite apply_updates_app. reflexivity.
    + now rewrite app_nil_r.
  - now rewrite app_nil_r.
Qed.

Lemma state_of_settle r st : state_of (settle r st) = st.
Proof. now destruct r. Qed.

(** Whether the promise is fulfilled or rejected, the state goes through the
    same updates. *)
Lemma runCommand_state host user raw st :
  nonempty (trim raw) = true ->
  state_of (runCommand host user raw st) =
    apply_updates (dispatch host user raw) (record_submission raw st).
Proof. intros H. rewrite runCommand_nonblank by exact H. apply state_of_settle. Qed.

Lemma dispatch_tokens host user raw cmd args :
  tokenize raw = cmd :: args ->
  dispatch host user raw =
    let '(us, exn) :=
      try_block (get_handler host (commands host user) cmd) cmd args in
    us ++ match exn with
          | None => []
          | Some err =>
              match catch_expr err with
              | inl text => [Call (ApiPrint text)]
              | inr _ => []
              end
          end.
Proof. unfold dispatch. now intros ->. Qed.

Lemma rejection_tokens host user raw cmd args :
  tokenize raw = cmd :: args ->
  rejection host user raw =
    let '(us, exn) :=
      try_block (get_handler host (commands host user) cmd) cmd args in
    match exn with
    | None => None
    | Some err =>
        match catch_expr err with
        | inl _ => None
        | inr err' => Some err'
        end
    end.
Proof. unfold rejection. now intros ->. Qed.

Lemma runCommand_history host user raw st :
  nonempty (trim raw) = true ->
  history (state_of (runCommand host user raw st))
    = slice_last 99 (history st) ++ [raw] /\
  histIdx (state_of (runCommand host user raw st)) = (-1)%Z /\
  input (state_of (runCommand host user raw st)) = input st /\
  suggestion (state_of (runCommand host user raw st)) = suggestion st.
Proof.
  intros H. rewrite runCommand_state by exact H.
  destruct (apply_updates_frame (dispatch host user raw) (record_submission raw st))
    as (-> & -> & -> & ->).
  now repeat split.
Qed.

(** ** Which handlers can clear the screen *)

Lemma builtin_lookup host key h :
  builtin host !! key = Some h ->
  (key, h) ∈ [
    (js "help", help); (js "clear", clear); (js "echo", echo);
    (js "about", about); (js "skills", skills); (js "projects", projects);
    (js "contact", contact); (js "date", date host); (js "time", time host);
    (js "github", github); (js "resume", resume); (js "open", open);
    (js "theme", theme_cmd host)
  ].
Proof. intros H. apply elem_of_list_to_map_2 in H. exact H. Qed.

Lemma commands_lookup host user key :
  commands host user !! key =
    match user !! key with
    | Some u => Some (lift u)
    | None => builtin host !! key
    end.
Proof.
  unfold commands. rewrite lookup_union, lookup_fmap.
  destruct (user !! key); simpl; [|now rewrite (left_id None _)].
  now destruct (builtin host !! key).
Qed.

Lemma lift_no_clear u args : ClearLines ∉ (lift u args).1.
Proof.
  unfold lift. destruct (u args) as [cs o]. simpl.
  intros H. apply list_elem_of_fmap in H as (c & Hc & _). discriminate.
Qed.

Lemma builtin_no_clear host key h :
  builtin host !! key = Some h ->
  (forall args, ClearLines ∉ (h args).1) \/ (key = js "clear" /\ h = clear).
Proof.
  intros H. apply builtin_lookup in H.
  repeat (apply elem_of_cons in H as [H|H]; [injection H as -> ->|]);
    try (now right);
    try (left; intros args; simpl; solve [no_clear]).
  - left. intros [|a0 args]; unfold open; simpl; [no_clear|].
    destruct (nonempty a0); simpl; no_clear.
  - left. intros args. unfold theme_cmd.
    case_bool_decide; simpl; no_clear.
Qed.

Lemma inherited_no_clear host key h args :
  inherited host key = Some h -> ClearLines ∉ (h args).1.
Proof.
  unfold inherited.
  repeat case_bool_decide; intros [= <-]; simpl; apply not_elem_of_nil.
Qed.

Lemma render_no_clear r : ClearLines ∉ render r.
Proof.
  destruct r as [lns|s|]; simpl.
  - intros H. apply list_elem_of_fmap in H as (c & Hc & _). discriminate.
  - destruct (nonempty s); no_clear.
  - no_clear.
Qed.

Lemma get_handler_no_clear host user key h :
  get_handler host (commands host user) key = Some h ->
  (forall args, ClearLines ∉ (h args).1) \/
  (key = js "clear" /\ user !! key = None /\ h = clear).
Proof.
  unfold get_handler. rewrite commands_lookup.
  destruct (user !! key) as [u|] eqn:Eu.
  - intros [= <-]. left. intros args. apply lift_no_clear.
  - destruct (builtin host !! key) as [b|] eqn:Eb.
    + intros [= <-]. destruct (builtin_no_clear _ _ _ Eb) as [H|[-> ->]]; auto.
    + intros H. left. intros args. eapply inherited_no_clear, H.
Qed.

(** A dispatch either leaves the scrollback lines in place, or it is the
    built-in [clear] and issues the single update that empties them. *)
Lemma dispatch_clear_cases host user raw :
  ClearLines ∉ dispatch host user raw \/
  (head (tokenize raw) = Some (js "clear") /\ user !! (js "clear") = None /\
   dispatch host user raw = [ClearLines]).
Proof.
  unfold dispatch.
  assert (Hcase : exists cmd args,
             destructure (tokenize raw) = (cmd, args) /\
             (cmd = js "clear" -> head (tokenize raw) = Some (js "clear"))).
  { destruct (tokenize raw) as [|cmd args]; simpl.
    - exists (js "undefined"), []. split; [reflexivity | discriminate].
    - exists cmd, args. split; [reflexivity | now intros ->]. }
  destruct Hcase as (cmd & args & -> & Hhead).
  destruct (get_handler host (commands host user) cmd) as [h|] eqn:Eh; simpl.
  - destruct (get_handler_no_clear _ _ _ _ Eh) as [Hno | (-> & Hu & ->)].
    + left. specialize (Hno args). destruct (h args) as [us [r|e]]; simpl in *.
      * rewrite app_nil_r. intros H. apply elem_of_app in H as [H|H];
          [contradiction | now apply render_no_clear in H].
      * intros H. apply elem_of_app in H as [H|H]; [contradiction|].
        destruct (catch_expr e) as [text|e']; [|now apply not_elem_of_nil in H].
        apply list_elem_of_singleton in H. discriminate.
    + right. auto.
  - left. no_clear.
Qed.

Lemma slice_last_short n (h : list jsstring) :
  (length h <= n)%nat -> slice_last n h = h.
Proof. intros H. unfold slice_last. now replace (length h - n)%nat with O by lia. Qed.

Lemma slice_last_length n (h : list jsstring) :
  length (slice_last n h) = Nat.min (length h) n.
Proof. unfold slice_last. rewrite length_drop. lia. Qed.

(** ** Submission *)

(** C2: submitting a line that consists of whitespace only (the empty line
    included) changes nothing: [runCommand] returns the state it was given,
    and typing the line and pressing Enter leaves scrollback, history and the
    history cursor as they were. *)
Theorem blank_submission_is_noop host user raw st :
  forallb is_space raw = true ->
  runCommand host user raw st = Fulfilled st /\
  lines (submit host user raw st) = lines st /\
  history (submit host user raw st) = history st /\
  histIdx (submit host user raw st) = histIdx st.
Proof.
  intros Hblank. apply blank_iff in Hblank. split.
  - now apply runCommand_blank.
  - unfold submit, steps. cbn [foldl].
    assert (Hin : input (step host user (Change raw) st) = raw).
    { unfold step. cbn [handle]. now case_bool_decide. }
    assert (Hfr : lines (step host user (Change raw) st) = lines st /\
                  history (step host user (Change raw) st) = history st /\
                  histIdx (step host user (Change raw) st) = histIdx st).
    { unfold step. cbn [handle]. now case_bool_decide. }
    destruct Hfr as (Hl & Hh & Hi).
    set (st1 := step host user (Change raw) st) in *.
    unfold step. cbn [handle onKeyDown]. rewrite Hin.
    rewrite runCommand_blank by exact Hblank. cbn [state_of].
    case_bool_decide; simpl; auto.
Qed.

Lemma blank_submission_is_noop_witness :
  runCommand asciiHost ∅ (js "  ") (init defaultProps)
    = Fulfilled (init defaultProps).
Proof.
  apply (blank_submission_is_noop asciiHost ∅ (js "  ") (init defaultProps)).
  reflexivity.
Defined.

(** C1 (as the code has it): for every line that is not blank, [runCommand]
    of the component appends the echo line, the dollar prompt followed by the
    raw input, once, ahead of everything the command does. The scrollback is
    then the old one, the echo line and what the command printed, with one
    exception: the built-in [clear], which is run exactly when the first
    token is clear and the caller did not replace it, empties the scrollback,
    echo line included. The raw line becomes the newest history entry, the
    cursor is reset to the sentinel -1, and the history keeps the most recent
    100 entries: below the bound it grows by one, at the bound the oldest
    entry is dropped. The bound is the constant of [runCommand]; the
    component has no prop that configures it. *)
Theorem submission_is_recorded host user raw st :
  forallb is_space raw = false ->
  let st' := state_of (runCommand host user raw st) in
  st' = apply_updates (dispatch host user raw) (record_submission raw st) /\
  lines (record_submission raw st) = lines st ++ [echo_line raw] /\
  (ClearLines ∈ dispatch host user raw <->
   head (tokenize raw) = Some (js "clear") /\ user !! (js "clear") = None) /\
  (ClearLines ∉ dispatch host user raw ->
   lines st' = lines st ++ echo_line raw :: printed (dispatch host user raw)) /\
  (ClearLines ∈ dispatch host user raw -> lines st' = []) /\
  history st' = slice_last 99 (history st) ++ [raw] /\
  last (history st') = Some raw /\
  histIdx st' = (-1)%Z /\
  ((length (history st) < 100)%nat -> history st' = history st ++ [raw]) /\
  (length (history st) = 100%nat -> history st' = tail (history st) ++ [raw]) /\
  ((length (history st) <= 100)%nat -> (length (history st') <= 100)%nat).
Proof.
  intros Hnb st'. subst st'. apply nonblank_iff in Hnb.
  destruct (runCommand_history host user raw st Hnb) as (Hh & Hi & _ & _).
  rewrite Hh, Hi. rewrite runCommand_state by exact Hnb.
  split; [reflexivity|]. split; [reflexivity|].
  assert (Hclear : ClearLines ∈ dispatch host user raw ->
            head (tokenize raw) = Some (js "clear") /\
            user !! (js "clear") = None /\
            dispatch host user raw = [ClearLines]).
  { intros Hin. destruct (dispatch_clear_cases host user raw) as [Hno|H];
      [contradiction | exact H]. }
  split.
  { split.
    - intros Hin. destruct (Hclear Hin) as (Hhd & Hu & _). now split.
    - intros [Hhd Hu]. destruct (tokenize raw) as [|cmd args] eqn:Htok;
        [discriminate|]. injection Hhd as ->.
      rewrite (dispatch_tokens _ _ _ _ _ Htok). unfold get_handler.
      rewrite commands_lookup, Hu. simpl. apply list_elem_of_singleton.
      reflexivity. }
  split.
  { intros Hno. rewrite lines_apply_updates by exact Hno. simpl.
    now rewrite <- app_assoc. }
  split.
  { intros Hin. destruct (Hclear Hin) as (_ & _ & ->). reflexivity. }
  split; [reflexivity|]. split; [apply last_snoc|].
  split; [reflexivity|]. split; [|split].
  - intros Hlt. rewrite slice_last_short by lia. reflexivity.
  - intros Heq. unfold slice_last. rewrite Heq. simpl.
    now destruct (history st).
  - intros Hle. rewrite length_app, slice_last_length. simpl. lia.
Qed.

Lemma submission_is_recorded_witness :
  let st' := state_of (runCommand asciiHost ∅ (js "echo hi") (init defaultProps)) in
  lines st' = [js "$ echo hi"; js "hi"] /\ history st' = [js "echo hi"].
Proof.
  intros st'.
  destruct (submission_is_recorded asciiHost ∅ (js "echo hi") (init defaultProps)
              eq_refl) as (_ & _ & _ & Hl & _ & Hh & _).
  fold st' in Hl, Hh. split; [|exact Hh].
  apply Hl.
  change (dispatch asciiHost ∅ (js "echo hi")) with [Call (ApiPrint (js "hi"))].
  no_clear.
Defined.

(** C1, as stated, fails: the bound cannot be set at construction. Whatever
    the props, four submissions from the initial state leave four history
    entries, so no construction makes the engine keep only the last three.
    Nor does every submission leave its echo line in the scrollback: after
    the line clear the scrollback is empty. *)
Lemma history_bound_is_not_configurable :
  (~ exists p : Props,
       history (run_all asciiHost p [js "a"; js "b"; js "c"; js "d"])
         = [js "b"; js "c"; js "d"]) /\
  lines (state_of (runCommand asciiHost ∅ (js "clear")
                     (appendLine (js "earlier line") (init defaultProps)))) = [].
Proof.
  split; [|reflexivity].
  intros [p H]. unfold run_all in H. cbn [foldl] in H.
  assert (Hstep : forall raw st, nonempty (trim raw) = true ->
            history (state_of (runCommand asciiHost (userCommandsOf p) raw st))
              = slice_last 99 (history st) ++ [raw]).
  { intros raw st Hnb. now apply runCommand_history. }
  rewrite !Hstep in H by reflexivity. vm_compute in H. discriminate H.
Qed.

(** ** Tokenizing *)

(** C3 (as the code has it): the tokenizer scans from left to right.
    Whitespace between tokens is skipped. Where a token starts with a double
    or single quote that has a matching quote later in the input, the text
    between the two, whitespace included, is one token without the quotes,
    and the scan goes on right behind the closing quote. Any other token is
    the longest run of non-whitespace characters, in which a quote is an
    ordinary character; this is also what happens to a quote that is never
    closed, so no input is rejected. Input without quotes is split on
    whitespace, and the line echo, quoted a b, c has the command name echo
    and the arguments a b and c. *)
Theorem tokenize_scans_tokens :
  (forall c s, is_space c = true -> tokenize (c :: s) = tokenize s) /\
  (forall q body rest, is_quote q = true -> q ∉ body ->
     tokenize (q :: body ++ q :: rest) = body :: tokenize rest) /\
  (forall c w rest, is_space c = false -> no_space w -> at_boundary rest ->
     (is_quote c = true -> c ∉ w ++ rest) ->
     tokenize (c :: w ++ rest) = (c :: w) :: tokenize rest) /\
  (forall s, no_quote s -> tokenize s = split_ws [] s) /\
  destructure (tokenize (js "echo " ++ [dquote] ++ js "a b" ++ [dquote] ++ js " c"))
    = (js "echo", [js "a b"; js "c"]) /\
  tokenize (js "echo " ++ [dquote] ++ js "a b")
    = [js "echo"; [dquote] ++ js "a"; js "b"].
Proof.
  split; [exact tokenize_space|].
  split; [exact tokenize_quoted|].
  split; [exact tokenize_word|].
  split; [exact tokenize_no_quote|].
  split; reflexivity.
Qed.

Lemma tokenize_scans_tokens_witness :
  tokenize ([dquote] ++ js "a b" ++ [dquote] ++ js " c")
    = js "a b" :: tokenize (js " c").
Proof.
  apply (proj1 (proj2 tokenize_scans_tokens) dquote (js "a b") (js " c")).
  - reflexivity.
  - vm_compute. intros H. repeat (apply elem_of_cons in H as [H|H]; [discriminate H|]).
    now apply elem_of_nil in H.
Defined.

(** C3, as stated, fails for a quoted substring that starts inside a word:
    in the line echo a, quote, b c, quote the text b c is enclosed in matching
    double quotes, yet it is split at its whitespace and the quotes stay. *)
Lemma quote_inside_word_is_not_grouped :
  tokenize (js "echo a" ++ [dquote] ++ js "b c" ++ [dquote])
    = [js "echo"; js "a" ++ [dquote] ++ js "b"; js "c" ++ [dquote]] /\
  js "b c" ∉ tokenize (js "echo a" ++ [dquote] ++ js "b c" ++ [dquote]).
Proof.
  split; [reflexivity|]. vm_compute. intros H.
  repeat (apply elem_of_cons in H as [H|H]; [discriminate H|]).
  now apply elem_of_nil in H.
Qed.

(** ** Dispatch *)

Lemma startsWith_refl s : startsWith s s = true.
Proof. induction s as [|c s IH]; simpl; [reflexivity|]. now rewrite N.eqb_refl. Qed.

Lemma includes_nil s : includes s [] = true.
Proof. destruct s; reflexivity. Qed.

Lemma includes_refl s : includes s s = true.
Proof.
  destruct s as [|c s]; [reflexivity|].
  cbn [includes]. now rewrite startsWith_refl.
Qed.

Lemma error_line_includes_message e : includes (error_line e) (message_text e) = true.
Proof.
  destruct e as [name [|c m]|[|c s]| |[|[s|e']|e'] [s'|e'']];
    unfold error_line; cbn [catch_expr convert message_text nonempty];
    auto using includes_nil, includes_refl.
Qed.

Lemma lines_appendLine text st : lines (appendLine text st) = lines st ++ [text].
Proof. reflexivity. Qed.

(** A handler that throws: the exception is caught, and the [catch] clause
    either appends one line after whatever the handler had already issued
    and the promise is fulfilled, or raises an exception of its own, which
    rejects the promise with nothing appended. *)
Lemma exception_is_caught host user raw st cmd args h us e :
  tokenize raw = cmd :: args ->
  get_handler host (commands host user) cmd = Some h ->
  h args = (us, Throws e) ->
  runCommand host user raw st =
    match catch_expr e with
    | inl text =>
        Fulfilled (appendLine text (apply_updates us (record_submission raw st)))
    | inr e' => Rejected (apply_updates us (record_submission raw st)) e'
    end.
Proof.
  intros Htok Hh Hrun.
  rewrite runCommand_nonblank by (eapply tokenize_nonblank, Htok).
  rewrite (dispatch_tokens _ _ _ _ _ Htok), (rejection_tokens _ _ _ _ _ Htok), Hh.
  cbn [try_block]. rewrite Hrun.
  destruct (catch_expr e) as [text|e']; simpl.
  - now rewrite apply_updates_app.
  - now rewrite app_nil_r.
Qed.

(** An exception that the [catch] clause can convert, such as an [Error], a
    string, [null] or [undefined], is rendered as one line that contains its
    message text; the promise is fulfilled. *)
Lemma renderable_exception_is_rendered host user raw st cmd args h us e :
  tokenize raw = cmd :: args ->
  get_handler host (commands host user) cmd = Some h ->
  h args = (us, Throws e) ->
  renderable e ->
  exists st',
    runCommand host user raw st = Fulfilled st' /\
    lines st' = lines (apply_updates us (record_submission raw st)) ++ [error_line e] /\
    (ClearLines ∉ us ->
     lines st' = lines st ++ echo_line raw :: printed us ++ [error_line e]) /\
    includes (error_line e) (message_text e) = true /\
    (message_text e <> [] -> error_line e = message_text e).
Proof.
  intros Htok Hh Hrun [text Ht].
  rewrite (exception_is_caught _ _ _ st _ _ _ _ _ Htok Hh Hrun).
  pose proof (error_line_includes_message e) as Hinc.
  assert (Hmsg : message_text e <> [] -> error_line e = message_text e).
  { destruct e as [name [|c m]|[|c s]| |[|[s|e']|e'] [s'|e'']];
      unfold error_line; simpl; congruence. }
  assert (Hel : error_line e = text) by (unfold error_line; now rewrite Ht).
  rewrite Ht, Hel in *. eexists. split; [reflexivity|].
  rewrite lines_appendLine. split; [reflexivity|]. split; [|now split].
  intros Hno. rewrite lines_apply_updates by exact Hno. simpl.
  rewrite <- !app_assoc. reflexivity.
Qed.

Lemma thrown_error_is_renderable name message : renderable (ThrownError name message).
Proof. eexists. reflexivity. Qed.

Lemma thrown_string_is_renderable s : renderable (ThrownString s).
Proof. eexists. reflexivity. Qed.

Lemma thrown_nullish_is_renderable : renderable ThrownNullish.
Proof. eexists. reflexivity. Qed.

(** C4: a command of the caller that throws an object without a prototype.
    The [catch] clause receives it, but there the conversion of the object
    to a line raises a [TypeError]: the promise of [runCommand] is rejected
    with that error, so the exception does reach the caller, and no line is
    appended for it. The scrollback only gains the echo line; history and
    cursor are those of any other submission. *)
Theorem unconvertible_exception_escapes host msg st :
  crashCommands msg !! (js "crash")
    = Some (fun _ => ([], Throws (nullPrototypeObject msg))) /\
  catch_expr (nullPrototypeObject msg) = inr (ThrownError (js "TypeError") msg) /\
  runCommand host (crashCommands msg) (js "crash") st =
    Rejected (record_submission (js "crash") st) (ThrownError (js "TypeError") msg) /\
  lines (state_of (runCommand host (crashCommands msg) (js "crash") st)) =
    lines st ++ [js "$ crash"] /\
  history (state_of (runCommand host (crashCommands msg) (js "crash") st)) =
    slice_last 99 (history st) ++ [js "crash"].
Proof.
  assert (Hu : crashCommands msg !! (js "crash")
               = Some (fun _ => ([], Throws (nullPrototypeObject msg)))).
  { apply lookup_singleton_eq. }
  assert (Hrun : runCommand host (crashCommands msg) (js "crash") st =
            Rejected (record_submission (js "crash") st)
                     (ThrownError (js "TypeError") msg)).
  { rewrite (exception_is_caught host (crashCommands msg) (js "crash") st
               (js "crash") [] (lift (fun _ => ([], Throws (nullPrototypeObject msg))))
               [] (nullPrototypeObject msg)); [reflexivity | reflexivity | | reflexivity].
    unfold get_handler. rewrite commands_lookup. unfold crashCommands.
    now rewrite lookup_singleton_eq. }
  split; [exact Hu|]. split; [reflexivity|]. split; [exact Hrun|].
  rewrite Hrun. split; reflexivity.
Qed.

Lemma elem_of_commandNames host user name :
  name ∈ commandNames host user <-> is_Some (commands host user !! name).
Proof.
  unfold commandNames.
  rewrite merge_sort_Permutation, elem_of_elements, elem_of_dom. reflexivity.
Qed.

Lemma inherited_None_iff host key :
  inherited host key = None <-> key ∉ object_prototype_names.
Proof.
  unfold inherited, object_prototype_names.
  rewrite !not_elem_of_cons.
  repeat case_bool_decide; split; try discriminate; tauto.
Qed.

(** A first token that is neither a key of the registry nor a name inherited
    from [Object.prototype] is reported, once, and nothing else changes after
    the submission was recorded. *)
Lemma unknown_command_is_reported host user raw st cmd args :
  tokenize raw = cmd :: args ->
  commands host user !! cmd = None ->
  cmd ∉ object_prototype_names ->
  runCommand host user raw st =
    Fulfilled (appendLine (not_found cmd) (record_submission raw st)).
Proof.
  intros Htok Hc Hp.
  rewrite runCommand_nonblank by (eapply tokenize_nonblank, Htok).
  rewrite (dispatch_tokens _ _ _ _ _ Htok).
  rewrite (rejection_tokens _ _ _ _ _ Htok). unfold get_handler. rewrite Hc.
  apply (inherited_None_iff host) in Hp. rewrite Hp. reflexivity.
Qed.

(** C5: the name toString is not a key of the registry and is not offered by
    autocomplete, yet [commands[cmd]] finds the method the registry object
    inherits, so the line toString is dispatched to it and prints its answer
    for a missing receiver. No command-not-found line is appended. *)
Theorem inherited_name_is_dispatched host st :
  commands host ∅ !! (js "toString") = None /\
  (js "toString" ∉ commandNames host ∅) /\
  runCommand host ∅ (js "toString") st =
    Fulfilled (appendLine (js "[object Undefined]")
                 (record_submission (js "toString") st)) /\
  lines (state_of (runCommand host ∅ (js "toString") st)) =
    lines st ++ [js "$ toString"; js "[object Undefined]"].
Proof.
  assert (Hc : commands host ∅ !! (js "toString") = None).
  { rewrite commands_lookup, lookup_empty. reflexivity. }
  split; [exact Hc|]. split.
  { rewrite elem_of_commandNames, Hc. apply is_Some_None. }
  rewrite runCommand_nonblank by reflexivity.
  rewrite (dispatch_tokens _ _ _ (js "toString") []) by reflexivity.
  rewrite (rejection_tokens _ _ _ (js "toString") []) by reflexivity.
  unfold get_handler. rewrite Hc. cbn [state_of].
  split; [reflexivity|]. simpl. now rewrite <- app_assoc.
Qed.

(** ** The [theme] command *)

Lemma builtin_theme host : builtin host !! (js "theme") = Some (theme_cmd host).
Proof. reflexivity. Qed.

Lemma builtin_help host : builtin host !! (js "help") = Some help.
Proof. reflexivity. Qed.

Lemma runCommand_theme host user raw st args :
  user !! (js "theme") = None ->
  tokenize raw = js "theme" :: args ->
  runCommand host user raw st =
    Fulfilled
      (let t := toLowerCase host (default [] (head args)) in
       if bool_decide (t ∈ theme_tokens)
       then appendLine (js "Theme set to " ++ t ++ js ".")
              (setTheme t (record_submission raw st))
       else appendLine theme_usage (record_submission raw st)).
Proof.
  intros Hu Htok.
  rewrite runCommand_nonblank by (eapply tokenize_nonblank, Htok).
  rewrite (dispatch_tokens _ _ _ _ _ Htok).
  rewrite (rejection_tokens _ _ _ _ _ Htok). unfold get_handler.
  rewrite commands_lookup, Hu, builtin_theme. cbn [try_block].
  unfold theme_cmd. cbv zeta. case_bool_decide; reflexivity.
Qed.

(** C6 (as the code has it): a line whose first token is theme, with the
    built-in handler in place, is decided on the lower-cased first argument
    t (the empty string when there is none). If t is one of holo, dark and
    light the theme becomes t and exactly one confirmation line follows the
    echo line; otherwise the theme is unchanged and exactly one usage line
    follows the echo line. *)
Theorem theme_switch_or_usage host user raw st args :
  user !! (js "theme") = None ->
  tokenize raw = js "theme" :: args ->
  let t := toLowerCase host (default [] (head args)) in
  let st' := state_of (runCommand host user raw st) in
  (t ∈ theme_tokens ->
     theme st' = t /\
     lines st' = lines st ++ [echo_line raw; js "Theme set to " ++ t ++ js "."]) /\
  (t ∉ theme_tokens ->
     theme st' = theme st /\
     lines st' = lines st ++ [echo_line raw; theme_usage]).
Proof.
  intros Hu Htok t st'. subst st'.
  rewrite (runCommand_theme _ _ _ _ _ Hu Htok). cbv zeta. fold t. cbn [state_of].
  split; intros Ht; case_bool_decide; try contradiction;
    (split; [reflexivity|]); simpl; now rewrite <- app_assoc.
Qed.

Lemma theme_switch_or_usage_witness :
  theme (state_of (runCommand asciiHost ∅ (js "theme light") (init defaultProps)))
    = js "light".
Proof.
  apply (theme_switch_or_usage asciiHost ∅ (js "theme light") (init defaultProps)
           [js "light"]); [reflexivity | reflexivity |].
  apply (bool_decide_unpack _). exact I.
Defined.

(** C6, as stated, fails for an argument in upper case: DARK is not in the
    closed set, yet the theme changes from holo to dark and the line that
    follows the echo is the confirmation, not the usage line. *)
Lemma theme_uppercase_is_accepted :
  (js "DARK" ∉ theme_tokens) /\
  theme (init defaultProps) = js "holo" /\
  theme (state_of (runCommand asciiHost ∅ (js "theme DARK") (init defaultProps)))
    = js "dark" /\
  lines (state_of (runCommand asciiHost ∅ (js "theme DARK") (init defaultProps)))
    = [js "$ theme DARK"; js "Theme set to dark."].
Proof.
  split; [|repeat split; reflexivity].
  vm_compute. intros H.
  repeat (apply elem_of_cons in H as [H|H]; [discriminate H|]).
  now apply elem_of_nil in H.
Qed.

Lemma is_ascii_js_DARK : is_ascii (js "DARK").
Proof. repeat (constructor; [reflexivity|]). constructor. Qed.

Lemma is_ascii_js_Holo : is_ascii (js "Holo").
Proof. repeat (constructor; [reflexivity|]). constructor. Qed.

(** C10: the [theme] handler lower-cases its first argument before it checks
    it. With t the lower-cased argument, the handler sets the theme to t and
    confirms when t is one of holo, dark and light, and it returns the usage
    line, without touching the theme, exactly when t is not. So on a host
    whose [toLowerCase] lower-cases ASCII letters the lines theme DARK and
    theme Holo set the theme to dark and to holo. *)
Theorem theme_argument_is_lowercased host args :
  let t := toLowerCase host (default [] (head args)) in
  (t ∈ theme_tokens ->
     theme_cmd host args =
       ([Call (ApiSetTheme t)],
        Returns (RString (js "Theme set to " ++ t ++ js ".")))) /\
  (theme_cmd host args = ([], Returns (RString theme_usage)) <->
     t ∉ theme_tokens) /\
  (lowers_ascii host ->
   forall user st, user !! (js "theme") = None ->
     theme (state_of (runCommand host user (js "theme DARK") st)) = js "dark" /\
     theme (state_of (runCommand host user (js "theme Holo") st)) = js "holo").
Proof.
  intros t. split; [|split].
  - intros Ht. unfold theme_cmd. fold t. now rewrite bool_decide_eq_true_2.
  - unfold theme_cmd. fold t. case_bool_decide; split; intros H';
      try reflexivity; try contradiction; try discriminate H'; assumption.
  - intros Hlow user st Hu.
    rewrite (runCommand_theme host user (js "theme DARK") st [js "DARK"] Hu eq_refl).
    rewrite (runCommand_theme host user (js "theme Holo") st [js "Holo"] Hu eq_refl).
    change (default [] (head [js "DARK"])) with (js "DARK").
    change (default [] (head [js "Holo"])) with (js "Holo"). cbv zeta.
    rewrite (Hlow _ is_ascii_js_DARK), (Hlow _ is_ascii_js_Holo).
    split; reflexivity.
Qed.

Lemma theme_argument_is_lowercased_witness :
  theme (state_of (runCommand asciiHost ∅ (js "theme DARK") (init defaultProps)))
    = js "dark" /\
  theme (state_of (runCommand asciiHost ∅ (js "theme Holo") (init defaultProps)))
    = js "holo".
Proof.
  apply (proj2 (proj2 (theme_argument_is_lowercased asciiHost []))).
  - intros s _. reflexivity.
  - reflexivity.
Defined.

(** ** The [help] command *)

Lemma runCommand_help host user st :
  user !! (js "help") = None ->
  runCommand host user (js "help") st =
    Fulfilled (apply_updates ((fun ln => Call (ApiPrint ln)) <$> help_text)
                 (record_submission (js "help") st)).
Proof.
  intros Hu. rewrite runCommand_nonblank by reflexivity.
  rewrite (dispatch_tokens _ _ _ (js "help") []) by reflexivity.
  rewrite (rejection_tokens _ _ _ (js "help") []) by reflexivity.
  unfold get_handler. rewrite commands_lookup, Hu, builtin_help.
  cbn [try_block help render]. now rewrite app_nil_r.
Qed.

(** C9 (as the code has it): the output of the built-in [help] is a fixed
    text. When the caller does not replace [help], running it appends that
    text after the echo line, and the name of every built-in command occurs
    in one of its lines. Commands the caller adds are not listed. *)
Theorem help_lists_builtin_names host user st :
  user !! (js "help") = None ->
  lines (state_of (runCommand host user (js "help") st))
    = lines st ++ echo_line (js "help") :: help_text /\
  forall name, is_Some (builtin host !! name) ->
    exists ln, ln ∈ help_text /\ includes ln name = true.
Proof.
  intros Hu. split.
  - rewrite runCommand_help by exact Hu. cbn [state_of].
    rewrite lines_apply_updates.
    + simpl. now rewrite <- app_assoc.
    + intros H. apply list_elem_of_fmap in H as (ln & Hln & _). discriminate.
  - intros name [h Hh]. apply builtin_lookup in Hh.
    assert (Hex : existsb (fun ln => includes ln name) help_text = true).
    { repeat (apply elem_of_cons in Hh as [Hh|Hh]; [injection Hh as -> _; reflexivity|]).
      now apply elem_of_nil in Hh. }
    apply existsb_exists in Hex as (ln & Hin & Hinc).
    exists ln. split; [now apply list_elem_of_In | exact Hinc].
Qed.

Lemma help_lists_builtin_names_witness :
  exists ln, ln ∈ help_text /\ includes ln (js "time") = true.
Proof.
  apply (proj2 (help_lists_builtin_names asciiHost ∅ (init defaultProps)
                  (lookup_empty _))).
  exists (time asciiHost). reflexivity.
Defined.

(** C9, as stated, fails for a command the caller adds: with the command foo
    added, foo is a key of the registry, is resolved by the dispatcher and is
    offered by autocomplete, but no line that running help leaves in the
    scrollback contains its name. *)
Lemma help_omits_added_command :
  is_Some (get_handler asciiHost (commands asciiHost fooCommands) (js "foo")) /\
  js "foo" ∈ commandNames asciiHost fooCommands /\
  forallb (fun ln => negb (includes ln (js "foo")))
    (lines (state_of (runCommand asciiHost fooCommands (js "help")
                        (init defaultProps)))) = true.
Proof.
  split; [|split].
  - eexists. reflexivity.
  - apply elem_of_commandNames. eexists. reflexivity.
  - reflexivity.
Qed.

(** ** Events and the state cells *)

Lemma step_cells host user ev st :
  lines (step host user ev st) = lines (handle host user ev st) /\
  input (step host user ev st) = input (handle host user ev st) /\
  history (step host user ev st) = history (handle host user ev st) /\
  histIdx (step host user ev st) = histIdx (handle host user ev st) /\
  theme (step host user ev st) = theme (handle host user ev st).
Proof. unfold step. case_bool_decide; now repeat split. Qed.

(** The hint is recomputed whenever an event changes the input, from the new
    input and the command names alone. *)
Lemma hint_follows_input host user ev st :
  input (step host user ev st) <> input st ->
  suggestion (step host user ev st) = hint host user (input (step host user ev st)).
Proof.
  destruct (step_cells host user ev st) as (_ & Hin & _). rewrite Hin.
  unfold step. case_bool_decide; [contradiction | reflexivity].
Qed.

Lemma change_cells host user v st :
  input (step host user (Change v) st) = v /\
  lines (step host user (Change v) st) = lines st /\
  history (step host user (Change v) st) = history st /\
  histIdx (step host user (Change v) st) = histIdx st.
Proof.
  destruct (step_cells host user (Change v) st) as (-> & -> & -> & -> & _).
  now repeat split.
Qed.

Lemma enter_cells host user st :
  nonempty (trim (input st)) = true ->
  history (step host user (KeyDown Enter) st)
    = slice_last 99 (history st) ++ [input st] /\
  histIdx (step host user (KeyDown Enter) st) = (-1)%Z /\
  input (step host user (KeyDown Enter) st) = [].
Proof.
  intros Hnb.
  destruct (step_cells host user (KeyDown Enter) st) as (_ & -> & -> & -> & _).
  cbn [handle onKeyDown].
  destruct (runCommand_history host user (input st)
              (setSuggestion [] (setInput [] st)) Hnb) as (-> & -> & -> & _).
  now repeat split.
Qed.

Lemma submit_cells host user raw st :
  forallb is_space raw = false ->
  history (submit host user raw st) = slice_last 99 (history st) ++ [raw] /\
  histIdx (submit host user raw st) = (-1)%Z /\
  input (submit host user raw st) = [].
Proof.
  intros Hnb. apply nonblank_iff in Hnb. unfold submit, steps. cbn [foldl].
  destruct (change_cells host user raw st) as (Hin & _ & Hh & _).
  rewrite <- Hin in Hnb.
  destruct (enter_cells host user _ Hnb) as (-> & -> & ->).
  now rewrite Hin, Hh.
Qed.

(** ** History navigation *)

Lemma arrow_up_cells host user st h i :
  history st = h -> histIdx st = i -> h <> [] ->
  let ni := if (i <? 0)%Z then (Z.of_nat (length h) - 1)%Z
            else Z.max 0 (i - 1) in
  history (step host user (KeyDown ArrowUp) st) = h /\
  histIdx (step host user (KeyDown ArrowUp) st) = ni /\
  input (step host user (KeyDown ArrowUp) st) = history_at h ni.
Proof.
  intros Hh Hi Hne ni.
  destruct (step_cells host user (KeyDown ArrowUp) st) as (_ & -> & -> & -> & _).
  cbn [handle onKeyDown]. rewrite Hh, Hi.
  destruct h as [|e h]; [contradiction|]. now repeat split.
Qed.

Lemma arrow_down_cells host user st h i :
  history st = h -> histIdx st = i -> (0 <= i)%Z ->
  history (step host user (KeyDown ArrowDown) st) = h /\
  histIdx (step host user (KeyDown ArrowDown) st)
    = (if (i + 1 >=? Z.of_nat (length h))%Z then -1 else i + 1)%Z /\
  input (step host user (KeyDown ArrowDown) st)
    = (if (i + 1 >=? Z.of_nat (length h))%Z then [] else history_at h (i + 1)).
Proof.
  intros Hh Hi Hpos.
  destruct (step_cells host user (KeyDown ArrowDown) st) as (_ & -> & -> & -> & _).
  cbn [handle onKeyDown]. rewrite Hh, Hi.
  replace (i <? 0)%Z with false by (symmetry; apply Z.ltb_ge; lia).
  destruct (i + 1 >=? Z.of_nat (length h))%Z; now repeat split.
Qed.

Lemma arrow_down_idle host user st :
  (histIdx st < 0)%Z -> step host user (KeyDown ArrowDown) st = st.
Proof.
  intros Hi. unfold step. cbn [handle onKeyDown].
  replace (histIdx st <? 0)%Z with true by (symmetry; apply Z.ltb_lt; lia).
  now rewrite bool_decide_eq_true_2.
Qed.

Lemma arrow_up_settled host user st :
  history st <> [] -> histIdx st = 0%Z ->
  input st = history_at (history st) 0 ->
  step host user (KeyDown ArrowUp) st = st.
Proof.
  intros Hne Hi Hin. unfold step. cbn [handle onKeyDown].
  destruct st as [ls inp h i sg th op]. simpl in *. subst i inp.
  destruct h as [|e h]; [contradiction|]. simpl.
  now rewrite bool_decide_eq_true_2.
Qed.

Lemma history_at_lookup (h : list jsstring) (i : nat) e :
  h !! i = Some e -> history_at h (Z.of_nat i) = e.
Proof.
  intros H. unfold history_at. rewrite Nat2Z.id.
  exact (f_equal (default []) H).
Qed.

Lemma submit_all_cells host user cs st :
  Forall (fun c => forallb is_space c = false) cs ->
  (length (history st) + length cs <= 100)%nat ->
  let st' := foldl (fun s c => submit host user c s) st cs in
  history st' = history st ++ cs /\
  (cs <> [] -> histIdx st' = (-1)%Z /\ input st' = []).
Proof.
  intros Hcs. revert st. induction Hcs as [|c cs Hc Hcs IH]; intros st Hlen st'.
  - subst st'. simpl. rewrite app_nil_r. split; [reflexivity | congruence].
  - subst st'. cbn [foldl]. simpl in Hlen.
    destruct (submit_cells host user c st Hc) as (Hh & Hi & Hin).
    rewrite slice_last_short in Hh by lia.
    specialize (IH (submit host user c st)). cbv zeta in IH.
    rewrite Hh, length_app in IH. simpl in IH.
    destruct IH as [IHh IHn]; [lia|]. rewrite <- app_assoc in IHh. split; [exact IHh|].
    intros _. destruct cs as [|c' cs]; [simpl; auto|]. now apply IHn.
Qed.

Lemma previous_enters host user st :
  history st <> [] -> (histIdx st < 0)%Z ->
  let st' := step host user (KeyDown ArrowUp) st in
  histIdx st' = (Z.of_nat (length (history st)) - 1)%Z /\
  last (history st) = Some (input st') /\
  history st' = history st.
Proof.
  intros Hne Hi st'. subst st'.
  destruct (arrow_up_cells host user st _ _ eq_refl eq_refl Hne) as (Hh & Hi' & Hin).
  rewrite Hh, Hi', Hin.
  replace (histIdx st <? 0)%Z with true by (symmetry; apply Z.ltb_lt; lia).
  split; [reflexivity|]. split; [|reflexivity].
  unfold history_at. rewrite last_lookup.
  replace (Z.to_nat (Z.of_nat (length (history st)) - 1))
    with (pred (length (history st))) by lia.
  destruct (history st !! pred (length (history st))) as [e|] eqn:E; [reflexivity|].
  apply lookup_ge_None in E. destruct (history st); [contradiction | simpl in E; lia].
Qed.

Lemma previous_older host user st i e :
  histIdx st = Z.of_nat (S i) -> history st !! i = Some e ->
  let st' := step host user (KeyDown ArrowUp) st in
  histIdx st' = Z.of_nat i /\ input st' = e /\ history st' = history st.
Proof.
  intros Hi He st'. subst st'.
  assert (Hne : history st <> []) by (intros E; rewrite E in He; discriminate).
  destruct (arrow_up_cells host user st _ _ eq_refl Hi Hne) as (Hh & Hi' & Hin).
  rewrite Hh, Hi', Hin.
  replace (Z.of_nat (S i) <? 0)%Z with false by (symmetry; apply Z.ltb_ge; lia).
  replace (Z.max 0 (Z.of_nat (S i) - 1)) with (Z.of_nat i) by lia.
  split; [reflexivity|]. split; [now apply history_at_lookup | reflexivity].
Qed.

Lemma previous_at_oldest host user st e :
  histIdx st = 0%Z -> history st !! 0%nat = Some e ->
  let st' := step host user (KeyDown ArrowUp) st in
  histIdx st' = 0%Z /\ input st' = e /\
  history st' = history st /\ lines st' = lines st /\
  (st' = st <-> input st = e) /\
  step host user (KeyDown ArrowUp) st' = st'.
Proof.
  intros Hi He st'. subst st'.
  assert (Hne : history st <> []) by (intros E; rewrite E in He; discriminate).
  destruct (arrow_up_cells host user st _ _ eq_refl Hi Hne) as (Hh & Hi' & Hin).
  simpl in Hi', Hin. pose proof (history_at_lookup _ 0 _ He) as Hat.
  assert (Hin' : input (step host user (KeyDown ArrowUp) st) = e)
    by (rewrite Hin; exact Hat).
  clear Hin. rename Hin' into Hin.
  split; [exact Hi'|]. split; [exact Hin|]. split; [exact Hh|]. split.
  { destruct (step_cells host user (KeyDown ArrowUp) st) as (-> & _).
    cbn [handle onKeyDown]. now destruct (history st). }
  split; [split|].
  - intros Hst. rewrite Hst in Hin. exact Hin.
  - intros Hst. apply arrow_up_settled; [exact Hne | exact Hi | now rewrite Hst].
  - apply arrow_up_settled; rewrite ?Hh; [exact Hne | exact Hi' |].
    rewrite Hin. symmetry. exact Hat.
Qed.

Lemma next_newer host user st i e :
  histIdx st = Z.of_nat i -> history st !! S i = Some e ->
  let st' := step host user (KeyDown ArrowDown) st in
  histIdx st' = Z.of_nat (S i) /\ input st' = e /\ history st' = history st.
Proof.
  intros Hi He st'. subst st'.
  assert (Hlen : (S i < length (history st))%nat) by (eapply lookup_lt_Some, He).
  destruct (arrow_down_cells host user st _ _ eq_refl Hi ltac:(lia))
    as (Hh & Hi' & Hin).
  rewrite Hh, Hi', Hin.
  replace (Z.of_nat i + 1 >=? Z.of_nat (length (history st)))%Z
    with false by (symmetry; rewrite Z.geb_leb; apply Z.leb_gt; lia).
  replace (Z.of_nat i + 1)%Z with (Z.of_nat (S i)) by lia.
  split; [reflexivity|]. split; [now apply history_at_lookup | reflexivity].
Qed.

Lemma next_past_newest host user st i :
  histIdx st = Z.of_nat i -> (length (history st) <= S i)%nat ->
  let st' := step host user (KeyDown ArrowDown) st in
  histIdx st' = (-1)%Z /\ input st' = [] /\ history st' = history st.
Proof.
  intros Hi Hlen st'. subst st'.
  destruct (arrow_down_cells host user st _ _ eq_refl Hi ltac:(lia))
    as (Hh & Hi' & Hin).
  rewrite Hh, Hi', Hin.
  replace (Z.of_nat i + 1 >=? Z.of_nat (length (history st)))%Z
    with true by (symmetry; rewrite Z.geb_leb; apply Z.leb_le; lia).
  now repeat split.
Qed.

Lemma navigation_scenario host user st c1 c2 c3 c4 c5 :
  history st = [] ->
  Forall (fun c => forallb is_space c = false) [c1; c2; c3; c4; c5] ->
  let st5 := foldl (fun s c => submit host user c s) st [c1; c2; c3; c4; c5] in
  let up5 := steps host user (replicate 5 (KeyDown ArrowUp)) st5 in
  let down1 := step host user (KeyDown ArrowDown) up5 in
  let down6 := steps host user (replicate 5 (KeyDown ArrowDown)) down1 in
  history st5 = [c1; c2; c3; c4; c5] /\
  input up5 = c1 /\ histIdx up5 = 0%Z /\
  input down1 = c2 /\ histIdx down1 = 1%Z /\
  input down6 = [] /\ histIdx down6 = (-1)%Z.
Proof.
  intros Hh0 Hcs st5 up5 down1 down6.
  destruct (submit_all_cells host user [c1; c2; c3; c4; c5] st Hcs) as [Hh Hi];
    [rewrite Hh0; simpl; lia|].
  destruct Hi as [Hi _]; [discriminate|].
  rewrite Hh0 in Hh. simpl app in Hh. fold st5 in Hh, Hi.
  subst down6 down1 up5. unfold steps. cbn [replicate foldl].
  destruct (arrow_up_cells host user _ _ _ Hh Hi ltac:(discriminate))
    as (Hh1 & Hi1 & Hin1). norm_rhs Hi1. norm_rhs Hin1.
  destruct (arrow_up_cells host user _ _ _ Hh1 Hi1 ltac:(discriminate))
    as (Hh2 & Hi2 & Hin2). norm_rhs Hi2. norm_rhs Hin2.
  destruct (arrow_up_cells host user _ _ _ Hh2 Hi2 ltac:(discriminate))
    as (Hh3 & Hi3 & Hin3). norm_rhs Hi3. norm_rhs Hin3.
  destruct (arrow_up_cells host user _ _ _ Hh3 Hi3 ltac:(discriminate))
    as (Hh4 & Hi4 & Hin4). norm_rhs Hi4. norm_rhs Hin4.
  destruct (arrow_up_cells host user _ _ _ Hh4 Hi4 ltac:(discriminate))
    as (Hh5 & Hi5 & Hin5). norm_rhs Hi5. norm_rhs Hin5.
  destruct (arrow_down_cells host user _ _ _ Hh5 Hi5 ltac:(lia))
    as (Hd1 & Hj1 & Hn1). norm_rhs Hj1. norm_rhs Hn1.
  destruct (arrow_down_cells host user _ _ _ Hd1 Hj1 ltac:(lia))
    as (Hd2 & Hj2 & Hn2). norm_rhs Hj2. norm_rhs Hn2.
  destruct (arrow_down_cells host user _ _ _ Hd2 Hj2 ltac:(lia))
    as (Hd3 & Hj3 & Hn3). norm_rhs Hj3. norm_rhs Hn3.
  destruct (arrow_down_cells host user _ _ _ Hd3 Hj3 ltac:(lia))
    as (Hd4 & Hj4 & Hn4). norm_rhs Hj4. norm_rhs Hn4.
  destruct (arrow_down_cells host user _ _ _ Hd4 Hj4 ltac:(lia))
    as (Hd5 & Hj5 & Hn5). norm_rhs Hj5. norm_rhs Hn5.
  rewrite (arrow_down_idle host user _ ltac:(rewrite Hj5; lia)).
  repeat split; assumption.
Qed.

(** C7 (as the code has it): history navigation. A previous request from
    the sentinel enters at the newest entry, from a later entry it moves one
    entry towards the oldest, and it puts the entry it reaches into the input
    buffer. At the oldest entry a previous request keeps the cursor there and
    puts the oldest entry into the buffer once more: it changes nothing
    exactly when the buffer still shows that entry, and it overwrites what
    was typed since; a request that follows it at once changes nothing. A
    next request moves one entry towards the newest and fills the buffer with
    it; past the newest entry it empties the buffer and resets the cursor to
    the sentinel -1; when not browsing it does nothing. After five
    submissions to a fresh history, five previous requests and one next
    request leave the second-oldest entry in the buffer, and five more next
    requests leave an empty buffer and the cursor at the sentinel. *)
Theorem history_navigation host user :
  (forall st, history st <> [] -> (histIdx st < 0)%Z ->
     let st' := step host user (KeyDown ArrowUp) st in
     histIdx st' = (Z.of_nat (length (history st)) - 1)%Z /\
     last (history st) = Some (input st') /\
     history st' = history st) /\
  (forall st i e, histIdx st = Z.of_nat (S i) -> history st !! i = Some e ->
     let st' := step host user (KeyDown ArrowUp) st in
     histIdx st' = Z.of_nat i /\ input st' = e /\ history st' = history st) /\
  (forall st e, histIdx st = 0%Z -> history st !! 0%nat = Some e ->
     let st' := step host user (KeyDown ArrowUp) st in
     histIdx st' = 0%Z /\ input st' = e /\
     history st' = history st /\ lines st' = lines st /\
     (st' = st <-> input st = e) /\
     step host user (KeyDown ArrowUp) st' = st') /\
  (forall st i e, histIdx st = Z.of_nat i -> history st !! S i = Some e ->
     let st' := step host user (KeyDown ArrowDown) st in
     histIdx st' = Z.of_nat (S i) /\ input st' = e /\ history st' = history st) /\
  (forall st i, histIdx st = Z.of_nat i -> (length (history st) <= S i)%nat ->
     let st' := step host user (KeyDown ArrowDown) st in
     histIdx st' = (-1)%Z /\ input st' = [] /\ history st' = history st) /\
  (forall st, (histIdx st < 0)%Z ->
     step host user (KeyDown ArrowDown) st = st) /\
  (forall st c1 c2 c3 c4 c5,
     history st = [] ->
     Forall (fun c => forallb is_space c = false) [c1; c2; c3; c4; c5] ->
     let st5 := foldl (fun s c => submit host user c s) st [c1; c2; c3; c4; c5] in
     let up5 := steps host user (replicate 5 (KeyDown ArrowUp)) st5 in
     let down1 := step host user (KeyDown ArrowDown) up5 in
     let down6 := steps host user (replicate 5 (KeyDown ArrowDown)) down1 in
     history st5 = [c1; c2; c3; c4; c5] /\
     input up5 = c1 /\ histIdx up5 = 0%Z /\
     input down1 = c2 /\ histIdx down1 = 1%Z /\
     input down6 = [] /\ histIdx down6 = (-1)%Z).
Proof.
  split; [exact (previous_enters host user)|].
  split; [exact (previous_older host user)|].
  split; [exact (previous_at_oldest host user)|].
  split; [exact (next_newer host user)|].
  split; [exact (next_past_newest host user)|].
  split; [exact (arrow_down_idle host user)|].
  exact (navigation_scenario host user).
Qed.

Lemma history_navigation_witness :
  let st5 := foldl (fun s c => submit asciiHost ∅ c s) (init defaultProps)
               [js "help"; js "about"; js "skills"; js "date"; js "time"] in
  let up5 := steps asciiHost ∅ (replicate 5 (KeyDown ArrowUp)) st5 in
  let down1 := step asciiHost ∅ (KeyDown ArrowDown) up5 in
  input down1 = js "about" /\ histIdx down1 = 1%Z.
Proof.
  intros st5 up5 down1.
  assert (Hcs : Forall (fun c => forallb is_space c = false)
                  [js "help"; js "about"; js "skills"; js "date"; js "time"]).
  { repeat (constructor; [reflexivity|]). constructor. }
  destruct (proj2 (proj2 (proj2 (proj2 (proj2 (proj2
              (history_navigation asciiHost ∅))))))
              (init defaultProps)
              (js "help") (js "about") (js "skills") (js "date") (js "time")
              eq_refl Hcs) as (_ & _ & _ & Hin & Hidx & _).
  split; [exact Hin | exact Hidx].
Defined.

(** C7, as stated, fails: a previous request at the oldest entry is not
    always a no-op. After the line a was submitted, a previous request
    brought it back and zz was typed over it, the cursor is still at the
    oldest entry, and a further previous request replaces zz by a. *)
Lemma previous_at_oldest_overwrites_input :
  let st := steps asciiHost ∅
              [Change (js "a"); KeyDown Enter; KeyDown ArrowUp; Change (js "zz")]
              (init defaultProps) in
  history st = [js "a"] /\ histIdx st = 0%Z /\ input st = js "zz" /\
  input (step asciiHost ∅ (KeyDown ArrowUp) st) = js "a" /\
  step asciiHost ∅ (KeyDown ArrowUp) st <> st.
Proof.
  intros st.
  assert (Hst : history st = [js "a"] /\ histIdx st = 0%Z /\ input st = js "zz")
    by (vm_compute; auto).
  destruct Hst as (Hh & Hi & Hin).
  assert (Hup : input (step asciiHost ∅ (KeyDown ArrowUp) st) = js "a")
    by (vm_compute; reflexivity).
  repeat (split; [assumption|]).
  intros E. rewrite E, Hin in Hup. discriminate Hup.
Qed.

(** ** Autocomplete *)

Lemma tab_handle host user st tok toks :
  tokenize (input st) = tok :: toks -> nonempty tok = true ->
  handle host user (KeyDown Tab) st =
    match matching (commandNames host user) tok with
    | [] => st
    | [m] => setSuggestion [] (setInput (replace_leading_word (input st) m) st)
    | ms => setSuggestion (join (js "  ") ms) st
    end.
Proof. intros Ht Hn. cbn [handle onKeyDown]. now rewrite Ht, Hn. Qed.

Lemma get_substitution_plain matched rest repl :
  36 ∉ repl -> get_substitution matched rest repl = repl.
Proof.
  induction repl as [|c r IH]; [reflexivity|].
  intros H. apply not_elem_of_cons in H as [Hc Hr]. cbn [get_substitution].
  destruct (N.eqb_spec c 36) as [E|_]; [congruence|]. now rewrite IH.
Qed.

(** A completion request with exactly one match replaces the word that
    starts the input buffer, when the buffer starts with a word. *)
Lemma tab_completes_leading_word host user st c w rest tok toks m :
  input st = c :: w ++ rest ->
  is_space c = false -> no_space w -> at_boundary rest ->
  tokenize (input st) = tok :: toks -> nonempty tok = true ->
  matching (commandNames host user) tok = [m] -> 36 ∉ m ->
  input (step host user (KeyDown Tab) st) = m ++ rest.
Proof.
  intros Hin Hc Hw Hr Htok Hne Hm Hd.
  destruct (step_cells host user (KeyDown Tab) st) as (_ & -> & _).
  rewrite (tab_handle _ _ _ _ _ Htok Hne), Hm. simpl input.
  unfold replace_leading_word. rewrite Hin.
  change (c :: w ++ rest) with ((c :: w) ++ rest).
  rewrite (nonspace_run_word (c :: w) rest) by (try constructor; assumption).
  now rewrite get_substitution_plain.
Qed.

(** With several matches the request only sets the suggestion. *)
Lemma tab_ambiguous host user st tok toks m1 m2 ms :
  tokenize (input st) = tok :: toks -> nonempty tok = true ->
  matching (commandNames host user) tok = m1 :: m2 :: ms ->
  step host user (KeyDown Tab) st
    = setSuggestion (join (js "  ") (m1 :: m2 :: ms)) st.
Proof.
  intros Htok Hne Hm. unfold step.
  rewrite (tab_handle _ _ _ _ _ Htok Hne), Hm.
  now rewrite bool_decide_eq_true_2.
Qed.

(** With no match, or no token to complete, the request does nothing. *)
Lemma tab_no_match host user st tok toks :
  tokenize (input st) = tok :: toks ->
  matching (commandNames host user) tok = [] ->
  step host user (KeyDown Tab) st = st.
Proof.
  intros Htok Hm. unfold step. cbn [handle onKeyDown]. rewrite Htok, Hm.
  destruct (nonempty tok); now rewrite bool_decide_eq_true_2.
Qed.

Lemma tab_no_token host user st :
  tokenize (input st) = [] -> step host user (KeyDown Tab) st = st.
Proof.
  intros Htok. unfold step. cbn [handle onKeyDown]. rewrite Htok.
  now rewrite bool_decide_eq_true_2.
Qed.

Lemma commandNames_history host :
  commandNames host historyCommands =
    [js "about"; js "clear"; js "contact"; js "date"; js "echo"; js "github";
     js "help"; js "history"; js "open"; js "projects"; js "resume";
     js "skills"; js "theme"; js "time"].
Proof. reflexivity. Qed.

(** The example of the specification: with the command history added to the
    registry, completing on h shows both names and keeps the buffer, and
    completing on he rewrites the buffer to help. *)
Lemma completion_example host st :
  let on_h := steps host historyCommands [Change (js "h"); KeyDown Tab] st in
  let on_he := steps host historyCommands [Change (js "he"); KeyDown Tab] st in
  input on_h = js "h" /\ suggestion on_h = js "help  history" /\
  input on_he = js "help".
Proof.
  intros on_h on_he. subst on_h on_he. unfold steps. cbn [foldl].
  destruct (change_cells host historyCommands (js "h") st) as (Hh & _).
  destruct (change_cells host historyCommands (js "he") st) as (Hhe & _).
  assert (Th : tokenize (input (step host historyCommands (Change (js "h")) st))
               = [js "h"]) by now rewrite Hh.
  assert (The : tokenize (input (step host historyCommands (Change (js "he")) st))
                = [js "he"]) by now rewrite Hhe.
  rewrite (tab_ambiguous _ _ _ _ _ (js "help") (js "history") [] Th eq_refl)
    by (rewrite commandNames_history; reflexivity).
  split; [exact Hh|]. split; [reflexivity|].
  rewrite (tab_completes_leading_word _ _ _ 104 [101] [] _ _ (js "help") Hhe
             eq_refl ltac:(repeat constructor) I The eq_refl).
  - reflexivity.
  - rewrite commandNames_history. reflexivity.
  - apply (bool_decide_unpack _). exact I.
Qed.

(** C8: a completion request on a buffer that starts with whitespace. The
    first token of the buffer, space, h, e, is he, and help is the only
    command name with that prefix, but the replacement only looks for a word
    at the very start of the buffer: the buffer is left as it was and the
    first token is not replaced by the match. *)
Theorem completion_misses_indented_token host st :
  let st1 := step host ∅ (Change (js " he")) st in
  input st1 = js " he" /\
  tokenize (js " he") = [js "he"] /\
  matching (commandNames host ∅) (js "he") = [js "help"] /\
  input (step host ∅ (KeyDown Tab) st1) = js " he".
Proof.
  intros st1. subst st1.
  destruct (change_cells host ∅ (js " he") st) as (Hin & _).
  split; [exact Hin|]. split; [reflexivity|]. split; [reflexivity|].
  destruct (step_cells host ∅ (KeyDown Tab) (step host ∅ (Change (js " he")) st))
    as (_ & -> & _).
  rewrite (tab_handle _ _ _ (js "he") []) by (rewrite ?Hin; reflexivity).
  change (matching (commandNames host ∅) (js "he")) with [js "help"].
  simpl input. now rewrite Hin.
Qed.

(** ** Invariants *)

Lemma init_invariants p : cursor_valid (init p) /\ history_bounded (init p).
Proof. split; [now left | unfold history_bounded; simpl; lia]. Qed.

Lemma runCommand_cells host user raw st :
  let st' := state_of (runCommand host user raw st) in
  (history st' = history st /\ histIdx st' = histIdx st) \/
  (history st' = slice_last 99 (history st) ++ [raw] /\ histIdx st' = (-1)%Z).
Proof.
  intros st'. subst st'. destruct (nonempty (trim raw)) eqn:E.
  - right. now destruct (runCommand_history host user raw st E) as (-> & -> & _).
  - left. now rewrite runCommand_blank.
Qed.

Lemma tab_keeps_history host user st :
  history (handle host user (KeyDown Tab) st) = history st /\
  histIdx (handle host user (KeyDown Tab) st) = histIdx st.
Proof.
  cbn [handle onKeyDown].
  destruct (tokenize (input st)) as [|tok toks]; [now split|].
  destruct (nonempty tok); [|now split].
  destruct (matching (commandNames host user) tok) as [|m [|m' ms]]; now split.
Qed.

(** Every event keeps the cursor valid and the history within its bound. *)
Lemma cursor_valid_step host user ev st :
  cursor_valid st /\ history_bounded st ->
  cursor_valid (step host user ev st) /\ history_bounded (step host user ev st).
Proof.
  unfold cursor_valid, history_bounded. intros [Hc Hb].
  destruct (step_cells host user ev st) as (_ & _ & -> & -> & _).
  destruct ev as [[ | | | | | ]|v]; cbn [handle onKeyDown].
  - destruct (history st) as [|e h] eqn:Eh; [rewrite Eh; auto|].
    simpl histIdx. simpl history. rewrite Eh. split; [|exact Hb]. right.
    destruct (histIdx st <? 0)%Z eqn:E;
      [apply Z.ltb_lt in E | apply Z.ltb_ge in E]; simpl length in *; lia.
  - destruct (histIdx st <? 0)%Z eqn:E; [auto|].
    destruct (histIdx st + 1 >=? Z.of_nat (length (history st)))%Z eqn:E';
      simpl; split; auto.
    right. apply Z.ltb_ge in E. rewrite Z.geb_leb in E'. apply Z.leb_gt in E'. lia.
  - destruct (runCommand_cells host user (input st)
                (setSuggestion [] (setInput [] st))) as [[-> ->]|[-> ->]].
    + simpl. auto.
    + split; [now left|]. rewrite length_app, slice_last_length. simpl. lia.
  - destruct (tab_keeps_history host user st) as [Hh Hi].
    cbn [handle onKeyDown] in Hh, Hi. rewrite Hh, Hi. auto.
  - auto.
  - auto.
  - simpl. auto.
Qed.

Lemma invariants_steps host user evs st :
  cursor_valid st /\ history_bounded st ->
  cursor_valid (steps host user evs st) /\ history_bounded (steps host user evs st).
Proof.
  revert st. induction evs as [|ev evs IH]; intros st H; [exact H|].
  unfold steps. cbn [foldl]. apply IH. now apply cursor_valid_step.
Qed.

(** ** The history bound of the sibling hook *)

(** With a bound of two or more the hook keeps the history within it. *)
Lemma hook_history_bounded historyMax prev raw :
  (2 <= historyMax)%Z -> (Z.of_nat (length prev) <= historyMax)%Z ->
  (Z.of_nat (length (UseTerminal.push_history historyMax prev raw)) <= historyMax)%Z.
Proof.
  intros Hm Hlen. unfold UseTerminal.push_history, UseTerminal.slice_from.
  rewrite length_app, length_drop. cbv zeta.
  replace (- historyMax + 1 <? 0)%Z with true by (symmetry; apply Z.ltb_lt; lia).
  simpl length. lia.
Qed.

(** The test of the specification with bound 3, on the hook: of four lines
    the last three are kept. *)
Lemma hook_history_bound_3 :
  foldl (UseTerminal.push_history 3) [] [js "a"; js "b"; js "c"; js "d"]
    = [js "b"; js "c"; js "d"].
Proof. reflexivity. Qed.

(** With a bound of one the slice starts at index 0 and drops nothing. *)
Lemma hook_history_bound_1 :
  foldl (UseTerminal.push_history 1) [] [js "a"; js "b"; js "c"]
    = [js "a"; js "b"; js "c"].
Proof. reflexivity. Qed.

(** The hook echoes the trimmed line, not the raw one. *)
Lemma hook_echo_is_trimmed :
  UseTerminal.echoed (js " help ") = js "$ help" /\
  echo_line (js " help ") = js "$  help ".
Proof. split; reflexivity. Qed.

(** * Further properties of the component *)

(** ** Tokens and blank lines *)

(** X1: the guard of [runCommand] and the tokenizer agree. A line has no
    token exactly when [raw.trim()] is empty, so a line that gets past the
    guard always has a command token and the destructuring never reads
    [undefined]. *)
Theorem no_token_iff_blank raw :
  (tokenize raw = [] <-> nonempty (trim raw) = false) /\
  (nonempty (trim raw) = true <->
   exists cmd args, destructure (tokenize raw) = (cmd, args) /\
                    tokenize raw = cmd :: args).
Proof.
  assert (Hiff : tokenize raw = [] <-> nonempty (trim raw) = false).
  { split.
    - intros Ht. destruct (nonempty (trim raw)) eqn:E; [|reflexivity].
      apply nonblank_iff, nonblank_tokenize in E as (tok & toks & E).
      rewrite E in Ht. discriminate.
    - intros Hb. now apply tokenize_blank, blank_iff. }
  split; [exact Hiff|]. split.
  - intros Hnb. apply nonblank_iff, nonblank_tokenize in Hnb as (tok & toks & E).
    exists tok, toks. now rewrite E.
  - intros (cmd & args & _ & E). now apply tokenize_nonblank in E.
Qed.

Lemma tokenize_plain_head tok rest :
  plain_token tok -> at_boundary rest ->
  tokenize (tok ++ rest) = tok :: tokenize rest.
Proof.
  intros (Hne & Hsp & Hq) Hb. destruct tok as [|c w]; [contradiction|].
  apply Forall_cons in Hsp as [Hc Hw]. apply Forall_cons in Hq as [Hqc _].
  apply (tokenize_word c w rest Hc Hw Hb). congruence.
Qed.

(** X2: joining and tokenizing are inverse on plain tokens. Tokens that are
    not empty and contain neither whitespace nor quotes, joined by single
    spaces, tokenize to themselves. *)
Theorem tokenize_join_plain toks :
  Forall plain_token toks -> tokenize (join (js " ") toks) = toks.
Proof.
  induction 1 as [|tok toks Htok Htoks IH]; [reflexivity|].
  destruct toks as [|tok' toks].
  - cbn [join]. rewrite <- (app_nil_r tok) at 1.
    now rewrite (tokenize_plain_head tok [] Htok I).
  - change (join (js " ") (tok :: tok' :: toks))
      with (tok ++ 32 :: join (js " ") (tok' :: toks)).
    rewrite (tokenize_plain_head tok _ Htok) by reflexivity.
    rewrite tokenize_space by reflexivity. now rewrite IH.
Qed.

Lemma plain_token_echo : plain_token (js "echo").
Proof.
  split; [discriminate|].
  split; repeat (constructor; [reflexivity|]); constructor.
Qed.

Lemma plain_token_hi : plain_token (js "hi").
Proof.
  split; [discriminate|].
  split; repeat (constructor; [reflexivity|]); constructor.
Qed.

Lemma tokenize_join_plain_witness :
  tokenize (join (js " ") [js "echo"; js "hi"]) = [js "echo"; js "hi"].
Proof.
  apply (tokenize_join_plain [js "echo"; js "hi"]).
  constructor; [exact plain_token_echo|].
  constructor; [exact plain_token_hi | constructor].
Defined.

(** X3: on a line without quote characters every token is plain: it is
    not empty and contains neither whitespace nor a quote. *)
Theorem tokens_of_unquoted_line s :
  no_quote s -> Forall plain_token (tokenize s).
Proof.
  remember (length s) as n eqn:Hn. revert s Hn.
  induction n as [n IH] using lt_wf_ind. intros s -> Hs.
  destruct s as [|c s]; [constructor|].
  pose proof Hs as Hs'. apply Forall_cons in Hs' as [Hc Hs'].
  rewrite tokenize_cons, match_here_plain by assumption.
  destruct (is_space c) eqn:E.
  - apply (IH (length s)); [simpl; lia | reflexivity | exact Hs'].
  - destruct (nonspace_run (c :: s)) as [w rest] eqn:Hrun.
    pose proof (nonspace_run_app _ _ _ Hrun) as Happ.
    pose proof (nonspace_run_boundary _ _ _ Hrun) as [Hw _].
    assert (Hne : w <> []).
    { simpl in Hrun. rewrite E in Hrun. destruct (nonspace_run s).
      injection Hrun as <- _. discriminate. }
    rewrite Happ in Hs. apply Forall_app in Hs as [Hqw Hqr].
    constructor; [now repeat split|].
    apply (IH (length rest)); [|reflexivity | exact Hqr].
    rewrite Happ, length_app. destruct w; [contradiction | simpl; lia].
Qed.

Lemma tokens_of_unquoted_line_witness :
  Forall plain_token (tokenize (js "  echo   a  b ")).
Proof.
  apply (tokens_of_unquoted_line (js "  echo   a  b ")).
  repeat (constructor; [reflexivity|]). constructor.
Defined.

(** ** The engine, event by event *)

(** X4: in every state the engine reaches from its initial state, whatever
    the props and the events, the history cursor is the sentinel or indexes
    an entry of the history, and the history has at most 100 entries. *)
Theorem reachable_states_are_valid host p evs :
  let st := steps host (userCommandsOf p) evs (init p) in
  cursor_valid st /\ history_bounded st /\
  (histIdx st <> (-1)%Z -> is_Some (history st !! Z.to_nat (histIdx st))).
Proof.
  intros st.
  destruct (invariants_steps host (userCommandsOf p) evs (init p)
              (init_invariants p)) as [Hc Hb].
  fold st in Hc, Hb. split; [exact Hc|]. split; [exact Hb|].
  intros Hne. destruct Hc as [E|[Hlo Hhi]]; [contradiction|].
  apply lookup_lt_is_Some. lia.
Qed.


Lemma apply_updates_render r st :
  lines (apply_updates (render r) st) = lines st ++ result_lines r /\
  opened (apply_updates (render r) st) = opened st /\
  theme (apply_updates (render r) st) = theme st.
Proof.
  destruct r as [lns|s|]; simpl.
  - revert st. induction lns as [|ln lns IH]; intros st.
    + simpl. now rewrite app_nil_r.
    + change (apply_updates ((fun l => Call (ApiPrint l)) <$> ln :: lns) st)
        with (apply_updates ((fun l => Call (ApiPrint l)) <$> lns) (appendLine ln st)).
      destruct (IH (appendLine ln st)) as (-> & -> & ->).
      simpl. now rewrite <- app_assoc.
  - destruct (nonempty s); simpl; rewrite ?app_nil_r; now repeat split.
  - rewrite app_nil_r. now repeat split.
Qed.

(** X5: a first token that is neither a key of the registry nor a name that
    the registry object inherits is reported by exactly one line after the
    echo line; theme, opened URLs, input buffer and suggestion stay as they
    were, and the line is recorded in the history like any other. *)
Theorem unknown_token_is_reported host user raw st cmd args :
  tokenize raw = cmd :: args ->
  commands host user !! cmd = None ->
  cmd ∉ object_prototype_names ->
  let st' := state_of (runCommand host user raw st) in
  lines st' = lines st ++ [echo_line raw; not_found cmd] /\
  theme st' = theme st /\ opened st' = opened st /\
  input st' = input st /\ suggestion st' = suggestion st /\
  history st' = slice_last 99 (history st) ++ [raw] /\
  histIdx st' = (-1)%Z.
Proof.
  intros Htok Hc Hp st'. subst st'.
  rewrite (unknown_command_is_reported _ _ _ _ _ _ Htok Hc Hp). simpl.
  rewrite <- app_assoc. now repeat split.
Qed.

Lemma unknown_token_is_reported_witness :
  lines (state_of (runCommand asciiHost ∅ (js "nope x") (init defaultProps)))
    = lines (init defaultProps) ++ [echo_line (js "nope x"); not_found (js "nope")].
Proof.
  apply (unknown_token_is_reported asciiHost ∅ (js "nope x") (init defaultProps)
           (js "nope") [js "x"]).
  - reflexivity.
  - reflexivity.
  - apply (bool_decide_unpack _). exact I.
Defined.



(** ** Built-in commands *)

Lemma runCommand_builtin (host : Host) (user : gmap jsstring user_handler)
  (raw : jsstring) (st : state) key args (h : handler) us r :
  tokenize raw = key :: args ->
  user !! key = None ->
  builtin host !! key = Some h ->
  h args = (us, Returns r) ->
  runCommand host user raw st =
    Fulfilled (apply_updates (us ++ render r) (record_submission raw st)).
Proof.
  intros Htok Hu Hb Hrun.
  rewrite runCommand_nonblank by (eapply tokenize_nonblank, Htok).
  rewrite (dispatch_tokens _ _ _ _ _ Htok).
  rewrite (rejection_tokens _ _ _ _ _ Htok). unfold get_handler.
  rewrite commands_lookup, Hu, Hb. cbn [try_block]. rewrite Hrun.
  now rewrite app_nil_r.
Qed.

Lemma has_http_scheme_prefixed a : has_http_scheme (js "https://" ++ a) = true.
Proof. destruct a; reflexivity. Qed.

(** X7: the built-in [open]. Without an argument, or with an empty one, it
    opens nothing and prints its usage line. Otherwise it opens exactly one
    URL, which always starts with http:// or https:// in some letter case:
    the argument itself when it has such a scheme, and the argument behind
    https:// when it has not. *)
Theorem open_opens_http_urls (host : Host) (user : gmap jsstring user_handler)
  (raw : jsstring) (st : state) args :
  user !! (js "open") = None ->
  tokenize raw = js "open" :: args ->
  let st' := state_of (runCommand host user raw st) in
  let a0 := default [] (head args) in
  let url := if has_http_scheme a0 then a0 else js "https://" ++ a0 in
  (a0 = [] ->
     opened st' = opened st /\
     lines st' = lines st ++ [echo_line raw; js "Usage: open <url>"]) /\
  (a0 <> [] ->
     opened st' = opened st ++ [url] /\ has_http_scheme url = true /\
     lines st' = lines st ++ [echo_line raw; js "Opening " ++ url ++ [8230]]).
Proof.
  intros Hu Htok st' a0 url. subst st'.
  assert (Hb : builtin host !! (js "open") = Some open) by reflexivity.
  split.
  - intros Ha.
    rewrite (runCommand_builtin host user raw st _ _ _ []
               (RString (js "Usage: open <url>")) Htok Hu Hb).
    + simpl. rewrite <- app_assoc. now split.
    + subst a0. destruct args as [|a args]; [reflexivity|].
      simpl in Ha. subst a. reflexivity.
  - intros Ha. subst a0. destruct args as [|a args]; [contradiction|].
    simpl in Ha, url.
    rewrite (runCommand_builtin host user raw st _ _ _
               [Call (ApiOpen url)] (RString (js "Opening " ++ url ++ [8230]))
               Htok Hu Hb).
    + simpl. rewrite <- app_assoc. repeat split.
      subst url. destruct (has_http_scheme a) eqn:E;
        [exact E | apply has_http_scheme_prefixed].
    + unfold open. destruct a as [|c a]; [contradiction|]. reflexivity.
Qed.

Lemma open_opens_http_urls_witness :
  opened (state_of (runCommand asciiHost ∅ (js "open example.com")
                      (init defaultProps)))
    = opened (init defaultProps) ++ [js "https://example.com"].
Proof.
  apply (open_opens_http_urls asciiHost ∅ (js "open example.com")
           (init defaultProps) [js "example.com"]);
    [reflexivity | reflexivity | discriminate].
Defined.

(** X8: the built-in [clear], with or without arguments, leaves an empty
    scrollback: the echo line of the command is removed with everything
    before it and nothing is printed. The line is still recorded in the
    history, and theme and opened URLs are untouched. *)
Theorem clear_empties_scrollback (host : Host)
  (user : gmap jsstring user_handler) (raw : jsstring) (st : state) args :
  user !! (js "clear") = None ->
  tokenize raw = js "clear" :: args ->
  let st' := state_of (runCommand host user raw st) in
  lines st' = [] /\
  history st' = slice_last 99 (history st) ++ [raw] /\
  theme st' = theme st /\ opened st' = opened st.
Proof.
  intros Hu Htok st'. subst st'.
  assert (Hb : builtin host !! (js "clear") = Some clear) by reflexivity.
  rewrite (runCommand_builtin host user raw st _ _ _ _ _ Htok Hu Hb eq_refl).
  now repeat split.
Qed.

Lemma clear_empties_scrollback_witness :
  lines (state_of (runCommand asciiHost ∅ (js "clear now")
                     (boot defaultProps (init defaultProps)))) = [].
Proof.
  apply (clear_empties_scrollback asciiHost ∅ (js "clear now")
           (boot defaultProps (init defaultProps)) [js "now"]); reflexivity.
Defined.

(** X9: the built-in [echo] prints its arguments joined by single spaces, as
    one line after the echo line, and prints nothing when the joined text is
    empty, as it is without arguments. *)
Theorem echo_prints_joined_arguments (host : Host)
  (user : gmap jsstring user_handler) (raw : jsstring) (st : state) args :
  user !! (js "echo") = None ->
  tokenize raw = js "echo" :: args ->
  let st' := state_of (runCommand host user raw st) in
  let out := join (js " ") args in
  lines st' = lines st ++ echo_line raw :: (if nonempty out then [out] else []) /\
  (args = [] -> lines st' = lines st ++ [echo_line raw]).
Proof.
  intros Hu Htok st' out. subst st'.
  assert (Hb : builtin host !! (js "echo") = Some echo) by reflexivity.
  rewrite (runCommand_builtin host user raw st _ _ _ _ _ Htok Hu Hb eq_refl).
  cbn [state_of]. fold out.
  assert (Hl : lines (apply_updates ([] ++ render (RString out))
                        (record_submission raw st))
               = lines st ++ echo_line raw :: (if nonempty out then [out] else [])).
  { simpl. destruct (nonempty out); simpl; now rewrite <- ?app_assoc. }
  split; [exact Hl|]. intros ->. rewrite Hl. reflexivity.
Qed.

Lemma echo_prints_joined_arguments_witness :
  lines (state_of (runCommand asciiHost ∅ (js "echo  a   b") (init defaultProps)))
    = lines (init defaultProps) ++ echo_line (js "echo  a   b")
        :: (if nonempty (join (js " ") [js "a"; js "b"])
            then [join (js " ") [js "a"; js "b"]] else []).
Proof.
  apply (echo_prints_joined_arguments asciiHost ∅ (js "echo  a   b")
           (init defaultProps) [js "a"; js "b"]); reflexivity.
Defined.

(** ** The theme under the built-in registry *)

Lemma builtin_sets_valid_theme host key h args t :
  builtin host !! key = Some h ->
  Call (ApiSetTheme t) ∈ (h args).1 -> t ∈ theme_tokens.
Proof.
  intros H. apply builtin_lookup in H.
  repeat (apply elem_of_cons in H as [H|H]; [injection H as -> ->|]);
    try (simpl; intros Hin;
         repeat (apply elem_of_cons in Hin as [Hin|Hin]; [discriminate Hin|]);
         now apply elem_of_nil in Hin).
  - destruct args as [|a0 args]; unfold open; simpl.
    + intros Hin. now apply elem_of_nil in Hin.
    + destruct (nonempty a0); simpl; intros Hin.
      * apply list_elem_of_singleton in Hin. discriminate.
      * now apply elem_of_nil in Hin.
  - unfold theme_cmd. case_bool_decide as Ht; simpl; intros Hin.
    + apply list_elem_of_singleton in Hin. now injection Hin as ->.
    + now apply elem_of_nil in Hin.
  - now apply elem_of_nil in H.
Qed.

Lemma apply_updates_theme_valid us st :
  (forall t, Call (ApiSetTheme t) ∈ us -> t ∈ theme_tokens) ->
  theme st ∈ theme_tokens -> theme (apply_updates us st) ∈ theme_tokens.
Proof.
  revert st. induction us as [|u us IH]; intros st Hus Hst; [exact Hst|].
  change (apply_updates (u :: us) st) with (apply_updates us (apply_update u st)).
  apply IH.
  - intros t Ht. apply Hus. now right.
  - destruct u as [[ln|url|t]|]; simpl; try exact Hst.
    apply Hus. now left.
Qed.

Lemma dispatch_builtin_theme_valid host raw t :
  Call (ApiSetTheme t) ∈ dispatch host ∅ raw -> t ∈ theme_tokens.
Proof.
  unfold dispatch. destruct (destructure (tokenize raw)) as [cmd args].
  unfold get_handler. rewrite commands_lookup, lookup_empty.
  destruct (builtin host !! cmd) as [h|] eqn:Eb.
  - cbn [try_block]. pose proof (builtin_sets_valid_theme host cmd h args t Eb) as Hv.
    destruct (h args) as [us [r|e]]; simpl in Hv |- *; intros Hin.
    + rewrite app_nil_r in Hin. apply elem_of_app in Hin as [Hin|Hin]; [auto|].
      destruct r as [lns|s|]; simpl in Hin.
      * apply list_elem_of_fmap in Hin as (ln & Hln & _). discriminate.
      * destruct (nonempty s);
          [apply list_elem_of_singleton in Hin; discriminate
          | now apply elem_of_nil in Hin].
      * now apply elem_of_nil in Hin.
    + apply elem_of_app in Hin as [Hin|Hin]; [auto|].
      destruct (catch_expr e) as [text|e']; [|now apply elem_of_nil in Hin].
      apply list_elem_of_singleton in Hin. discriminate.
  - unfold inherited. repeat case_bool_decide; cbn [try_block]; simpl; intros Hin;
      rewrite ?app_nil_r in Hin;
      repeat (apply elem_of_cons in Hin as [Hin|Hin]; [discriminate Hin|]);
      try (now apply elem_of_nil in Hin).
    apply list_elem_of_fmap in Hin as (ln & Hln & _). discriminate.
Qed.

Lemma step_theme_builtin host ev st :
  theme st ∈ theme_tokens -> theme (step host ∅ ev st) ∈ theme_tokens.
Proof.
  intros Hst. destruct (step_cells host ∅ ev st) as (_ & _ & _ & _ & ->).
  destruct ev as [[ | | | | | ]|v]; cbn [handle onKeyDown]; try exact Hst.
  - destruct (history st); exact Hst.
  - destruct (histIdx st <? 0)%Z; [exact Hst|].
    destruct (histIdx st + 1 >=? Z.of_nat (length (history st)))%Z; exact Hst.
  - destruct (nonempty (trim (input st))) eqn:E.
    + rewrite runCommand_state by exact E.
      apply apply_updates_theme_valid; [|exact Hst].
      intros t. apply dispatch_builtin_theme_valid.
    + rewrite runCommand_blank by exact E. exact Hst.
  - destruct (tokenize (input st)) as [|tok toks]; [exact Hst|].
    destruct (nonempty tok); [|exact Hst].
    destruct (matching (commandNames host ∅) tok) as [|m [|m' ms]]; exact Hst.
Qed.

(** X10: with the built-in registry alone the theme stays one of holo, dark
    and light: no sequence of keyboard and input events, whatever is typed,
    takes a theme of the closed set to a theme outside it. *)
Theorem builtin_theme_stays_valid host evs st :
  theme st ∈ theme_tokens -> theme (steps host ∅ evs st) ∈ theme_tokens.
Proof.
  revert st. induction evs as [|ev evs IH]; intros st Hst; [exact Hst|].
  unfold steps. cbn [foldl]. apply IH. now apply step_theme_builtin.
Qed.

Lemma builtin_theme_stays_valid_witness :
  theme (steps asciiHost ∅ [Change (js "theme NEON"); KeyDown Enter]
           (init defaultProps)) ∈ theme_tokens.
Proof.
  apply (builtin_theme_stays_valid asciiHost
           [Change (js "theme NEON"); KeyDown Enter] (init defaultProps)).
  apply (bool_decide_unpack _). exact I.
Defined.

(** X11: pressing Enter always leaves an empty input buffer and an empty
    suggestion, whether the line was blank, unknown, failed or succeeded. *)
Theorem enter_resets_input host user st :
  input (step host user (KeyDown Enter) st) = [] /\
  suggestion (step host user (KeyDown Enter) st) = [].
Proof.
  assert (H : input (handle host user (KeyDown Enter) st) = [] /\
              suggestion (handle host user (KeyDown Enter) st) = []).
  { cbn [handle onKeyDown]. destruct (nonempty (trim (input st))) eqn:E.
    - destruct (runCommand_history host user (input st)
                  (setSuggestion [] (setInput [] st)) E) as (_ & _ & -> & ->).
      now split.
    - rewrite runCommand_blank by exact E. now split. }
  destruct H as [Hi Hs]. unfold step. cbv zeta.
  case_bool_decide; [split; assumption|]. split; [exact Hi|].
  cbn [suggestion setSuggestion]. now rewrite Hi.
Qed.

(** ** The registry and the command names *)

Lemma str_le_total a b : Is_true (str_le a b) \/ Is_true (str_le b a).
Proof.
  revert b. induction a as [|x a IH]; intros [|y b]; simpl; auto.
  rewrite (N.eqb_sym y x). destruct (N.eqb_spec x y) as [->|Hne]; [apply IH|].
  destruct (N.ltb_spec x y), (N.ltb_spec y x); simpl; auto. lia.
Qed.

Lemma str_le_trans a b c :
  Is_true (str_le a b) -> Is_true (str_le b c) -> Is_true (str_le a c).
Proof.
  revert b c. induction a as [|x a IH]; intros [|y b] [|z c]; simpl; auto;
    try contradiction.
  destruct (N.eqb_spec x y) as [->|Hxy].
  - destruct (N.eqb_spec y z) as [->|Hyz]; [apply IH | auto].
  - destruct (N.eqb_spec y z) as [->|Hyz].
    + destruct (N.eqb_spec x z); [congruence | auto].
    + destruct (N.ltb_spec x y), (N.ltb_spec y z); simpl; try contradiction.
      intros _ _. destruct (N.eqb_spec x z) as [->|_]; [lia|].
      destruct (N.ltb_spec x z); simpl; [exact I | lia].
Qed.

(** X12: the registry is the built-ins overlaid by the caller's commands. A
    caller's command is the one dispatched under its name; every built-in
    name stays a command name, so help always resolves; the command names
    are exactly the names of the two sources, each once, in ascending order
    of their code units. *)
Theorem registry_names (host : Host) (user : gmap jsstring user_handler) :
  (forall key (u : user_handler), user !! key = Some u ->
     get_handler host (commands host user) key = Some (lift u)) /\
  (forall key, user !! key = None ->
     commands host user !! key = builtin host !! key) /\
  (forall key, key ∈ commandNames host user <->
     is_Some (user !! key) \/ is_Some (builtin host !! key)) /\
  js "help" ∈ commandNames host user /\
  NoDup (commandNames host user) /\
  StronglySorted (fun a b => Is_true (str_le a b)) (commandNames host user).
Proof.
  assert (Hnames : forall key, key ∈ commandNames host user <->
            is_Some (user !! key) \/ is_Some (builtin host !! key)).
  { intros key. rewrite elem_of_commandNames, commands_lookup.
    destruct (user !! key) as [u|]; split.
    - intros _. left. now eexists.
    - intros _. now eexists.
    - intros H. now right.
    - intros [[u Hu]|H]; [discriminate | exact H]. }
  split; [|split; [|split; [exact Hnames | split; [|split]]]].
  - intros key u Hu. unfold get_handler. now rewrite commands_lookup, Hu.
  - intros key Hu. now rewrite commands_lookup, Hu.
  - apply Hnames. right. now eexists.
  - unfold commandNames. rewrite merge_sort_Permutation. apply NoDup_elements.
  - unfold commandNames.
    apply (@StronglySorted_merge_sort _ (fun a b => Is_true (str_le a b)) _).
    + intros a b c. apply str_le_trans.
    + intros a b. apply str_le_total.
Qed.

Lemma registry_names_witness :
  get_handler asciiHost (commands asciiHost fooCommands) (js "foo")
    = Some (lift (fun _ => ([], Returns ROther))).
Proof.
  apply (proj1 (registry_names asciiHost fooCommands)). reflexivity.
Defined.

(** ** Completion and the hint *)

Lemma matching_spec names tok m :
  m ∈ matching names tok <-> m ∈ names /\ startsWith m tok = true.
Proof.
  unfold matching. rewrite !list_elem_of_In.
  apply (filter_In (fun c => startsWith c tok)).
Qed.

(** X13: a completion request with exactly one match, on a buffer that
    starts with a plain token, replaces that token by the match and keeps
    what follows it. The match is a command name that extends the token, and
    scrollback, history and cursor are untouched. (The match must not
    contain a dollar sign, which the replacement would interpret.) *)
Theorem completion_replaces_leading_word (host : Host)
  (user : gmap jsstring user_handler) (st : state) tok rest m :
  input st = tok ++ rest -> plain_token tok -> at_boundary rest ->
  matching (commandNames host user) tok = [m] -> 36 ∉ m ->
  let st' := step host user (KeyDown Tab) st in
  input st' = m ++ rest /\
  startsWith m tok = true /\ m ∈ commandNames host user /\
  lines st' = lines st /\ history st' = history st /\ histIdx st' = histIdx st.
Proof.
  intros Hin Htok Hb Hm Hd st'. subst st'.
  pose proof (tokenize_plain_head tok rest Htok Hb) as Ht. rewrite <- Hin in Ht.
  destruct Htok as (Hne & Hsp & _). destruct tok as [|c w]; [contradiction|].
  apply Forall_cons in Hsp as [Hc Hw].
  split; [now apply (tab_completes_leading_word host user st c w rest
                       (c :: w) (tokenize rest) m)|].
  assert (Hmem : m ∈ matching (commandNames host user) (c :: w))
    by (rewrite Hm; now left).
  apply matching_spec in Hmem as [Hn Hs]. split; [exact Hs|]. split; [exact Hn|].
  destruct (step_cells host user (KeyDown Tab) st) as (-> & _ & -> & -> & _).
  rewrite (tab_handle _ _ _ _ _ Ht eq_refl), Hm. now repeat split.
Qed.

Lemma completion_replaces_leading_word_witness :
  input (step asciiHost ∅ (KeyDown Tab) (setInput (js "he x") (init defaultProps)))
    = js "help" ++ js " x".
Proof.
  apply (completion_replaces_leading_word asciiHost ∅
           (setInput (js "he x") (init defaultProps)) (js "he") (js " x")
           (js "help")).
  - reflexivity.
  - split; [discriminate|].
    split; repeat (constructor; [reflexivity|]); constructor.
  - reflexivity.
  - reflexivity.
  - apply (bool_decide_unpack _). exact I.
Defined.

(** X14: a completion request never touches scrollback, history, cursor or
    theme. Unless exactly one command name matches the first token, it
    leaves the input buffer alone: with two or more matches it shows all of
    them, in the order of the command names and separated by two spaces, as
    the suggestion; with no match, or no token, it changes nothing. *)
Theorem completion_request_frame (host : Host)
  (user : gmap jsstring user_handler) (st : state) :
  let st' := step host user (KeyDown Tab) st in
  lines st' = lines st /\ history st' = history st /\
  histIdx st' = histIdx st /\ theme st' = theme st /\
  (tokenize (input st) = [] -> st' = st) /\
  (forall tok toks m1 m2 ms,
     tokenize (input st) = tok :: toks -> tok <> [] ->
     matching (commandNames host user) tok = m1 :: m2 :: ms ->
     input st' = input st /\
     suggestion st' = join (js "  ") (m1 :: m2 :: ms)) /\
  (forall tok toks,
     tokenize (input st) = tok :: toks ->
     matching (commandNames host user) tok = [] -> st' = st).
Proof.
  intros st'. subst st'.
  destruct (step_cells host user (KeyDown Tab) st) as (Hl & _ & Hh & Hi & Ht).
  destruct (tab_keeps_history host user st) as [Hh' Hi'].
  rewrite Hl, Hh, Hi, Ht, Hh', Hi'.
  split; [|split; [reflexivity|split; [reflexivity|split]]].
  - cbn [handle onKeyDown]. destruct (tokenize (input st)) as [|tok toks]; [reflexivity|].
    destruct (nonempty tok); [|reflexivity].
    now destruct (matching (commandNames host user) tok) as [|m [|m' ms]].
  - cbn [handle onKeyDown]. destruct (tokenize (input st)) as [|tok toks]; [reflexivity|].
    destruct (nonempty tok); [|reflexivity].
    now destruct (matching (commandNames host user) tok) as [|m [|m' ms]].
  - split; [apply tab_no_token|]. split.
    + intros tok toks m1 m2 ms Htok Hne Hm.
      assert (Hn : nonempty tok = true) by now destruct tok.
      now rewrite (tab_ambiguous host user st tok toks m1 m2 ms Htok Hn Hm).
    + intros tok toks Htok Hm. now apply (tab_no_match host user st tok toks).
Qed.

(** X15: after the input buffer changed, the suggestion is the hint of the
    new buffer: either empty, or the one command name that has the first
    token of the buffer as a prefix. *)
Theorem hint_is_the_unique_match (host : Host)
  (user : gmap jsstring user_handler) (v : jsstring) (st : state) :
  v <> input st ->
  let s := suggestion (step host user (Change v) st) in
  s = [] \/
  exists tok toks,
    tokenize v = tok :: toks /\ tok <> [] /\
    matching (commandNames host user) tok = [s] /\
    startsWith s tok = true /\ s ∈ commandNames host user.
Proof.
  intros Hne s. subst s.
  destruct (change_cells host user v st) as (Hin & _).
  rewrite hint_follows_input by now rewrite Hin. rewrite Hin. unfold hint.
  destruct (tokenize v) as [|tok toks]; [now left|].
  destruct tok as [|c w]; [now left|]. cbn [nonempty].
  destruct (matching (commandNames host user) (c :: w)) as [|m [|m' ms]] eqn:Hm;
    [now left | | now left].
  right. exists (c :: w), toks.
  assert (Hmem : m ∈ matching (commandNames host user) (c :: w))
    by (rewrite Hm; now left).
  apply matching_spec in Hmem as [Hn Hs]. now repeat split.
Qed.

Lemma hint_is_the_unique_match_witness :
  suggestion (step asciiHost ∅ (Change (js "he")) (init defaultProps)) = []
  \/ exists tok toks,
       tokenize (js "he") = tok :: toks /\ tok <> [] /\
       matching (commandNames asciiHost ∅) tok
         = [suggestion (step asciiHost ∅ (Change (js "he")) (init defaultProps))] /\
       startsWith (suggestion (step asciiHost ∅ (Change (js "he"))
                                 (init defaultProps))) tok = true /\
       suggestion (step asciiHost ∅ (Change (js "he")) (init defaultProps))
         ∈ commandNames asciiHost ∅.
Proof.
  apply (hint_is_the_unique_match asciiHost ∅ (js "he") (init defaultProps)).
  discriminate.
Defined.

(** ** Names inherited by the registry object *)

(** X16: every name that the registry object inherits from
    [Object.prototype], unless the registry has a command of that name, is
    dispatched like a command and never reported as not found: constructor
    prints its arguments, one per line; toString prints its answer for a
    missing receiver; each of the others fails with a type error whose text
    is printed as one line. *)
Theorem prototype_names_run_as_commands (host : Host)
  (user : gmap jsstring user_handler) (raw : jsstring) (st : state) key args :
  tokenize raw = key :: args ->
  commands host user !! key = None ->
  let st' := state_of (runCommand host user raw st) in
  (key = js "constructor" ->
     lines st' = lines st ++ echo_line raw :: args) /\
  (key = js "toString" ->
     lines st' = lines st ++ [echo_line raw; js "[object Undefined]"]) /\
  (key ∈ prototype_throwing ->
     lines st' = lines st ++
       [echo_line raw;
        error_line (ThrownError (js "TypeError") (typeErrorMessage host key))]).
Proof.
  intros Htok Hc st'. subst st'.
  rewrite runCommand_state by (eapply tokenize_nonblank, Htok).
  rewrite (dispatch_tokens _ _ _ _ _ Htok). unfold get_handler. rewrite Hc.
  split; [|split].
  - intros ->.
    change (inherited host (js "constructor"))
      with (Some (fun args0 : list jsstring =>
                    (@nil update, Returns (RArray args0)))).
    cbn [try_block]. rewrite app_nil_r.
    change ([] ++ render (RArray args)) with (render (RArray args)).
    destruct (apply_updates_render (RArray args) (record_submission raw st))
      as (-> & _). simpl. now rewrite <- app_assoc.
  - intros ->. simpl. now rewrite <- app_assoc.
  - intros Hin. unfold prototype_throwing in Hin.
    repeat (apply elem_of_cons in Hin as [->|Hin];
            [simpl; now rewrite <- app_assoc|]).
    now apply elem_of_nil in Hin.
Qed.

Lemma prototype_names_run_as_commands_witness :
  lines (state_of (runCommand asciiHost ∅ (js "constructor a b")
                     (init defaultProps)))
    = lines (init defaultProps) ++ echo_line (js "constructor a b")
        :: [js "a"; js "b"].
Proof.
  apply (prototype_names_run_as_commands asciiHost ∅ (js "constructor a b")
           (init defaultProps) (js "constructor") [js "a"; js "b"]);
    reflexivity.
Defined.

(** ** Rendering a line *)

Lemma esc_app a b : esc (a ++ b) = esc a ++ esc b.
Proof. unfold esc, replace_all_char. now rewrite !flat_map_app. Qed.

Lemma esc_single c : esc [c] = entity c.
Proof.
  unfold entity.
  destruct (N.eqb_spec c 38) as [->|H38]; [reflexivity|].
  destruct (N.eqb_spec c 60) as [->|H60]; [reflexivity|].
  destruct (N.eqb_spec c 62) as [->|H62]; [reflexivity|].
  unfold esc, replace_all_char. simpl.
  apply N.eqb_neq in H38, H60, H62. rewrite H38. simpl. rewrite H60. simpl.
  now rewrite H62.
Qed.

Lemma esc_cons c text : esc (c :: text) = entity c ++ esc text.
Proof. now rewrite <- esc_single, <- esc_app. Qed.

Lemma entity_no_bracket c : (60 ∉ entity c) /\ (62 ∉ entity c).
Proof.
  unfold entity.
  destruct (N.eqb_spec c 38); [split; apply (bool_decide_unpack _); exact I|].
  destruct (N.eqb_spec c 60); [split; apply (bool_decide_unpack _); exact I|].
  destruct (N.eqb_spec c 62); [split; apply (bool_decide_unpack _); exact I|].
  split; intros H; apply list_elem_of_singleton in H; congruence.
Qed.

(** X17: escaping works character by character, although it is done in
    three passes: the ampersand and the two angle brackets become their
    entities and every other character is copied, and the entities written
    by one pass are not touched by the next. The escaped text contains no
    angle bracket. *)
Theorem esc_writes_entities text :
  esc text = flat_map entity text /\ (60 ∉ esc text) /\ (62 ∉ esc text).
Proof.
  induction text as [|c text (IH & Hlt & Hgt)].
  - split; [reflexivity|]. split; apply not_elem_of_nil.
  - rewrite esc_cons. split; [simpl; now rewrite IH|].
    destruct (entity_no_bracket c) as [Hl Hg].
    split; intros H; apply elem_of_app in H as [H|H]; contradiction.
Qed.

Lemma entity_app_inj x y a b :
  entity x ++ a = entity y ++ b -> x = y /\ a = b.
Proof.
  unfold entity.
  destruct (N.eqb_spec x 38) as [Hx38|Hx38];
    [|destruct (N.eqb_spec x 60) as [Hx60|Hx60];
      [|destruct (N.eqb_spec x 62) as [Hx62|Hx62]]];
  (destruct (N.eqb_spec y 38) as [Hy38|Hy38];
    [|destruct (N.eqb_spec y 60) as [Hy60|Hy60];
      [|destruct (N.eqb_spec y 62) as [Hy62|Hy62]]]);
  intros H; vm_compute in H; try discriminate H;
  injection H; intros; subst; first [ now split | congruence ].
Qed.

(** X18: escaping loses nothing: two texts with the same escaped text are
    the same text. *)
Theorem esc_is_injective a b : esc a = esc b -> a = b.
Proof.
  revert b. induction a as [|x a IH]; intros [|y b].
  - reflexivity.
  - rewrite esc_cons. unfold entity.
    destruct (N.eqb y 38), (N.eqb y 60), (N.eqb y 62); discriminate.
  - rewrite esc_cons. unfold entity.
    destruct (N.eqb x 38), (N.eqb x 60), (N.eqb x 62); discriminate.
  - rewrite !esc_cons. intros H. apply entity_app_inj in H as [-> H].
    f_equal. now apply IH.
Qed.

Lemma esc_is_injective_witness :
  js "a<b" = js "a<b".
Proof.
  apply (esc_is_injective (js "a<b") (js "a<b")). reflexivity.
Defined.

Lemma startsWith_app s p : startsWith s p = true -> s = p ++ drop (length p) s.
Proof.
  revert s. induction p as [|a p IH]; intros s; [reflexivity|].
  destruct s as [|b s]; simpl; [discriminate|].
  destruct (N.eqb_spec a b) as [->|]; [|discriminate].
  simpl. intros H. f_equal. now apply IH.
Qed.

Lemma startsWith_prefix p r : startsWith (p ++ r) p = true.
Proof.
  induction p as [|a p IH]; simpl; [now destruct r|]. now rewrite N.eqb_refl.
Qed.

Lemma url_run_app s u rest : url_run s = (u, rest) -> s = u ++ rest.
Proof.
  revert u rest. induction s as [|c s IH]; intros u rest; simpl.
  - now intros [= <- <-].
  - destruct (url_char c); [|now intros [= <- <-]].
    destruct (url_run s) as [u' r'] eqn:E. intros [= <- <-].
    simpl. f_equal. now apply IH.
Qed.

Lemma url_run_word u rest :
  Forall (fun c => url_char c = true) u -> url_boundary rest ->
  url_run (u ++ rest) = (u, rest).
Proof.
  intros Hu Hr. induction Hu as [|c u Hc Hu IH]; simpl.
  - destruct rest as [|r rest]; [reflexivity|]. simpl in *. now rewrite Hr.
  - now rewrite Hc, IH.
Qed.

Lemma prefixed_url_shorter prefix s m rest :
  prefixed_url prefix s = Some (m, rest) ->
  s = m ++ rest /\ (length rest < length s)%nat.
Proof.
  unfold prefixed_url. destruct (startsWith s prefix) eqn:E; [|discriminate].
  apply startsWith_app in E.
  destruct (url_run (drop (length prefix) s)) as [[|c u] r] eqn:Er; [discriminate|].
  intros [= <- <-]. apply url_run_app in Er.
  assert (Hs : s = (prefix ++ c :: u) ++ r).
  { rewrite <- app_assoc. now rewrite <- Er. }
  split; [exact Hs|]. rewrite Hs, !length_app. simpl. lia.
Qed.

Lemma link_here_shorter s m rest :
  link_here s = Some (m, rest) ->
  s = m ++ rest /\ (length rest < length s)%nat.
Proof.
  unfold link_here.
  destruct (prefixed_url (js "https://") s) as [[m1 r1]|] eqn:E1.
  { intros [= <- <-]. now apply prefixed_url_shorter in E1. }
  destruct (prefixed_url (js "http://") s) as [[m2 r2]|] eqn:E2.
  { intros [= <- <-]. now apply prefixed_url_shorter in E2. }
  intros E3. now apply prefixed_url_shorter in E3.
Qed.

Lemma linkify_loop_fuel n k s :
  (length s <= n)%nat -> (length s <= k)%nat ->
  linkify_loop n s = linkify_loop k s.
Proof.
  revert k s. induction n as [|n IH]; intros k s Hn Hk.
  - destruct s; [|simpl in Hn; lia]. now destruct k.
  - destruct k as [|k]; [destruct s; [reflexivity | simpl in Hk; lia]|].
    destruct s as [|c s]; [reflexivity|].
    cbn [linkify_loop]. destruct (link_here (c :: s)) as [[m rest]|] eqn:E.
    + apply link_here_shorter in E as [_ E]. simpl in E, Hn, Hk.
      f_equal. apply IH; lia.
    + simpl in Hn, Hk. f_equal. apply IH; lia.
Qed.

Lemma linkify_cons c s :
  linkify (c :: s) =
    match link_here (c :: s) with
    | Some (m, rest) => anchor m ++ linkify rest
    | None => c :: linkify s
    end.
Proof.
  unfold linkify. cbn [linkify_loop length].
  destruct (link_here (c :: s)) as [[m rest]|] eqn:E; [|reflexivity].
  apply link_here_shorter in E as [_ E]. simpl in E. f_equal.
  apply linkify_loop_fuel; lia.
Qed.

Lemma link_here_prefixed prefix u rest :
  prefix ∈ link_prefixes -> u <> [] ->
  Forall (fun c => url_char c = true) u -> url_boundary rest ->
  link_here (prefix ++ u ++ rest) = Some (prefix ++ u, rest).
Proof.
  intros Hp Hne Hu Hr.
  assert (Hgo : prefixed_url prefix (prefix ++ u ++ rest) = Some (prefix ++ u, rest)).
  { unfold prefixed_url. rewrite startsWith_prefix, drop_app_length.
    rewrite (url_run_word u rest Hu Hr). now destruct u. }
  unfold link_prefixes in Hp.
  repeat (apply elem_of_cons in Hp as [->|Hp]); [| | | now apply elem_of_nil in Hp].
  - unfold link_here.
    change (prefixed_url (js "https://") (js "http://" ++ u ++ rest)) with (@None (jsstring * jsstring)).
    now rewrite Hgo.
  - unfold link_here. now rewrite Hgo.
  - unfold link_here.
    change (prefixed_url (js "https://") (js "www." ++ u ++ rest)) with (@None (jsstring * jsstring)).
    change (prefixed_url (js "http://") (js "www." ++ u ++ rest)) with (@None (jsstring * jsstring)).
    now rewrite Hgo.
Qed.

(** X19: what [Line] links. Scanning the escaped text from the left, a
    position where the link regex does not match is copied as it is; where
    the text reads http://, https:// or www. followed by a non-empty run of
    characters other than whitespace and the closing parenthesis, the prefix
    and the whole run, up to the end of the text or the first such
    character, are replaced by one anchor for them and the scan goes on
    behind the run. A text in which the regex matches nowhere is only
    escaped, and the empty text renders as the empty string. *)
Theorem line_links_urls :
  (forall c s, link_here (c :: s) = None -> linkify (c :: s) = c :: linkify s) /\
  (forall prefix u rest,
     prefix ∈ link_prefixes -> u <> [] ->
     Forall (fun c => url_char c = true) u -> url_boundary rest ->
     linkify (prefix ++ u ++ rest) = anchor (prefix ++ u) ++ linkify rest) /\
  (forall text,
     (forall i, link_here (drop i (esc text)) = None) -> Line text = esc text) /\
  Line [] = [].
Proof.
  split; [|split; [|split; [|reflexivity]]].
  - intros c s H. now rewrite linkify_cons, H.
  - intros prefix u rest Hp Hne Hu Hr.
    pose proof (link_here_prefixed prefix u rest Hp Hne Hu Hr) as H.
    destruct (prefix ++ u ++ rest) as [|c s] eqn:E.
    + destruct prefix; [|discriminate E]. destruct u; [contradiction | discriminate E].
    + now rewrite linkify_cons, H.
  - intros text Hno. unfold Line.
    assert (Hl : forall s, (forall i, link_here (drop i s) = None) -> linkify s = s).
    { induction s as [|c s IH]; intros H; [reflexivity|].
      pose proof (H 0%nat) as H0. cbn [drop] in H0.
      rewrite linkify_cons, H0. f_equal. apply IH.
      intros i. exact (H (S i)). }
    destruct text as [|c text]; [reflexivity|]. cbn [nonempty]. now apply Hl.
Qed.

Lemma line_links_urls_witness :
  linkify (js "www." ++ js "a.b" ++ js ") x")
    = anchor (js "www." ++ js "a.b") ++ linkify (js ") x").
Proof.
  apply (proj1 (proj2 line_links_urls) (js "www.") (js "a.b") (js ") x")).
  - apply (bool_decide_unpack _). exact I.
  - discriminate.
  - repeat (constructor; [reflexivity|]). constructor.
  - reflexivity.
Defined.

(** ** The typewriter and the boot banner *)

Lemma tick_lines fuel text i :
  tick fuel text i =
    (fun k => take k text) <$>
      seq (i + 1) (Nat.min fuel (Nat.max 1 (length text - i))).
Proof.
  revert i. induction fuel as [|fuel IH]; intros i; [reflexivity|].
  cbn [tick]. destruct (Nat.ltb_spec (i + 1) (length text)) as [Hlt|Hge].
  - rewrite IH.
    replace (Nat.min (S fuel) (Nat.max 1 (length text - i)))
      with (S (Nat.min fuel (Nat.max 1 (length text - (i + 1))))) by lia.
    cbn [seq fmap list_fmap]. do 3 f_equal. lia.
  - replace (Nat.min (S fuel) (Nat.max 1 (length text - i))) with 1%nat by lia.
    reflexivity.
Qed.

Lemma typed_lines_prefixes text :
  typed_lines text =
    (fun k => take k text) <$> seq 1 (Nat.max 1 (length text)).
Proof.
  unfold typed_lines. rewrite tick_lines. do 2 f_equal. lia.
Qed.

Lemma lines_foldl_appendLine lns st :
  lines (foldl (fun s ln => appendLine ln s) st lns) = lines st ++ lns /\
  history (foldl (fun s ln => appendLine ln s) st lns) = history st /\
  histIdx (foldl (fun s ln => appendLine ln s) st lns) = histIdx st /\
  theme (foldl (fun s ln => appendLine ln s) st lns) = theme st.
Proof.
  revert st. induction lns as [|ln lns IH]; intros st; cbn [foldl].
  - now rewrite app_nil_r.
  - destruct (IH (appendLine ln st)) as (-> & -> & -> & ->).
    simpl. now rewrite <- app_assoc.
Qed.

Lemma last_typed_lines text : last (typed_lines text) = Some text.
Proof.
  rewrite typed_lines_prefixes.
  destruct (Nat.max 1 (length text)) as [|n] eqn:E; [lia|].
  rewrite seq_S, fmap_app. cbn [fmap list_fmap]. rewrite last_snoc.
  f_equal. apply take_ge. lia.
Qed.

(** X20: the typewriter does not retype one line: for a text of n
    characters it appends n lines, the prefixes of the text of length 1 up
    to n in this order, so the last line is the text itself. For the empty
    text it appends one empty line. Nothing but the scrollback changes. *)
Theorem appendType_appends_every_prefix text st :
  lines (appendType text st) =
    lines st ++ ((fun k => take k text) <$> seq 1 (Nat.max 1 (length text))) /\
  length (lines (appendType text st)) =
    (length (lines st) + Nat.max 1 (length text))%nat /\
  last (lines (appendType text st)) = Some text /\
  history (appendType text st) = history st /\
  histIdx (appendType text st) = histIdx st /\
  theme (appendType text st) = theme st.
Proof.
  unfold appendType.
  destruct (lines_foldl_appendLine (typed_lines text) st) as (Hl & -> & -> & ->).
  rewrite Hl. split; [now rewrite typed_lines_prefixes|].
  split; [|split; [|now repeat split]].
  - rewrite length_app, typed_lines_prefixes, length_fmap, length_seq. reflexivity.
  - pose proof (last_typed_lines text) as Hlast.
    destruct (typed_lines text) as [|l ls] using rev_ind; [discriminate|].
    rewrite app_assoc, last_snoc. now rewrite last_snoc in Hlast.
Qed.

Lemma lines_foldl_appendType texts st :
  lines (foldl (fun s ln => appendType ln s) st texts)
    = lines st ++ flat_map typed_lines texts.
Proof.
  revert st. induction texts as [|t texts IH]; intros st; cbn [foldl flat_map].
  - now rewrite app_nil_r.
  - rewrite IH. unfold appendType.
    destruct (lines_foldl_appendLine (typed_lines t) st) as (-> & _).
    now rewrite <- app_assoc.
Qed.

(** X21: the boot sequence, run to its end, appends to the scrollback the
    typed banner lines, one empty line and the typed initial lines, in this
    order. When there are initial lines, the last line of the scrollback is
    then the last initial line. *)
Theorem boot_fills_scrollback p st :
  lines (boot p st) =
    lines st ++ flat_map typed_lines banner ++ [] ::
      flat_map typed_lines (initialLines p) /\
  (forall ln, last (initialLines p) = Some ln ->
              last (lines (boot p st)) = Some ln).
Proof.
  assert (Hl : lines (boot p st) =
    lines st ++ flat_map typed_lines banner ++ [] ::
      flat_map typed_lines (initialLines p)).
  { unfold boot. rewrite lines_foldl_appendType, lines_appendLine,
      lines_foldl_appendType. now rewrite <- !app_assoc. }
  split; [exact Hl|]. intros ln Hlast. rewrite Hl.
  destruct (initialLines p) as [|l ls] using rev_ind; [discriminate|].
  rewrite last_snoc in Hlast. injection Hlast as ->.
  rewrite flat_map_app. cbn [flat_map]. rewrite app_nil_r.
  pose proof (last_typed_lines ln) as Ht.
  destruct (typed_lines ln) as [|t ts] using rev_ind; [discriminate|].
  rewrite last_snoc in Ht. injection Ht as ->.
  change ([] :: flat_map typed_lines ls ++ ts ++ [ln])
    with (([] :: flat_map typed_lines ls) ++ ts ++ [ln]).
  rewrite !app_assoc. apply last_snoc.
Qed.

Lemma boot_fills_scrollback_witness :
  last (lines (boot defaultProps (init defaultProps)))
    = Some (js "Try: projects, skills, about, theme holo").
Proof.
  apply (proj2 (boot_fills_scrollback defaultProps (init defaultProps))).
  reflexivity.
Defined.

(** ** Dragging the window *)

Lemma clamp_bounds v lo hi :
  (lo <= clamp v lo hi)%Z /\
  ((lo <= hi)%Z -> (clamp v lo hi <= hi)%Z) /\
  ((lo <= v <= hi)%Z -> clamp v lo hi = v).
Proof. unfold clamp. repeat split; intros; lia. Qed.

(** X22: while a drag is in progress, every pointer move leaves the window
    where its title bar can still be reached. Its left edge is at most 8
    pixels short of the right edge of the viewport and its right edge at
    least 8 pixels inside the left edge; its top is at least 8 pixels below
    the top of the viewport and, when the viewport is at least 56 pixels
    high, at least 48 pixels above its bottom. Inside these bounds the
    window follows the pointer exactly. *)
Theorem drag_keeps_window_reachable clientX clientY w d :
  dragState w = Some d ->
  let w' := onDragMove clientX clientY w in
  let x := (origX d + (clientX - startX d))%Z in
  let y := (origY d + (clientY - startY d))%Z in
  (8 <= fst (pos w') + rectW d)%Z /\
  ((16 <= boundsW d + rectW d)%Z -> (fst (pos w') <= boundsW d - 8)%Z) /\
  (8 <= snd (pos w'))%Z /\
  ((56 <= boundsH d)%Z -> (snd (pos w') <= boundsH d - 48)%Z) /\
  ((8 - rectW d <= x <= boundsW d - 8)%Z -> fst (pos w') = x) /\
  ((8 <= y <= boundsH d - 48)%Z -> snd (pos w') = y) /\
  size w' = size w /\ dragState w' = dragState w.
Proof.
  intros Hd w' x y. subst w'. unfold onDragMove. rewrite Hd. simpl.
  fold x y. unfold clamp. repeat split; intros; lia.
Qed.

Lemma drag_keeps_window_reachable_witness :
  (8 <= fst (pos (onDragMove 5000 (-30)
                    (onDragStart true 100 100 None 1280 720
                       (initWindow defaultProps)))) + 820)%Z.
Proof.
  exact (proj1 (drag_keeps_window_reachable 5000 (-30)
                  (onDragStart true 100 100 None 1280 720
                     (initWindow defaultProps))
                  (mkDragState 100 100 64 64 1280 720 820 420)
                  eq_refl)).
Defined.

(** X23: a drag is measured from where it started, not from the last move:
    a move overrides the one before it, and a pointer that returns to the
    start point puts a window that was inside the bounds back where it was.
    Without a drag in progress, also after the drag ended, a move does
    nothing, and a closed window does not start a drag. *)
Theorem drag_is_relative_to_its_start w :
  (forall x1 y1 x2 y2,
     onDragMove x2 y2 (onDragMove x1 y1 w) = onDragMove x2 y2 w) /\
  (forall x y, dragState w = None -> onDragMove x y w = w) /\
  (forall x y, onDragMove x y (onDragEnd w) = onDragEnd w) /\
  (forall x y rect iw ih, onDragStart false x y rect iw ih w = w) /\
  (forall sx sy rect iw ih,
     let rw := match rect with Some r => fst r | None => fst (size w) end in
     (8 - rw <= fst (pos w) <= iw - 8)%Z ->
     (8 <= snd (pos w) <= ih - 48)%Z ->
     pos (onDragMove sx sy (onDragStart true sx sy rect iw ih w)) = pos w).
Proof.
  split; [|split; [|split; [|split]]].
  - intros x1 y1 x2 y2. unfold onDragMove.
    destruct (dragState w) as [d|] eqn:E; simpl; rewrite ?E; reflexivity.
  - intros x y E. unfold onDragMove. now rewrite E.
  - reflexivity.
  - reflexivity.
  - intros sx sy rect iw ih rw Hx Hy. subst rw. unfold onDragMove, onDragStart.
    destruct rect as [[rw rh]|]; destruct (pos w) as [px py];
      simpl in *; unfold clamp; f_equal; lia.
Qed.

Lemma drag_is_relative_to_its_start_witness :
  pos (onDragMove 300 200
         (onDragStart true 300 200 None 1280 720 (initWindow defaultProps)))
    = pos (initWindow defaultProps).
Proof.
  apply (proj2 (proj2 (proj2 (proj2
           (drag_is_relative_to_its_start (initWindow defaultProps)))))
           300%Z 200%Z None 1280%Z 720%Z); simpl; lia.
Defined.

(** ** Showing and hiding the overlay *)

(** X24: the hotkey and closing. Whatever the hotkey prop says, the only key
    that toggles the overlay is the backtick; the prop only decides whether
    Ctrl has to be held, which it does exactly when the prop contains Ctrl
    and the backtick joined by a plus sign, in any letter case. When the
    caller does not control visibility, the hotkey flips it, so pressing it
    twice changes nothing and pressing it after a close shows the overlay
    again. When the caller controls visibility, neither the hotkey nor a
    close changes it: the hotkey calls onClose once if the overlay is shown
    and the callback was given, and a close calls it once if it was given. *)
Theorem hotkey_and_close p onClose key ctrlKey w :
  let r := hotkeyHandler p onClose key ctrlKey w in
  (isOpenNow p (fst r) <> isOpenNow p w \/ snd r <> 0%nat ->
     key = js "`" /\ ctrlKey = wantCtrl p) /\
  (isOpen p = None -> key = js "`" -> ctrlKey = wantCtrl p ->
     isOpenNow p (fst r) = negb (isOpenNow p w) /\ snd r = 0%nat /\
     fst (hotkeyHandler p onClose key ctrlKey (fst r)) = w /\
     isOpenNow p (fst (handleClose p onClose w)) = false /\
     isOpenNow p (fst (hotkeyHandler p onClose key ctrlKey
                         (fst (handleClose p onClose w)))) = true) /\
  (forall b, isOpen p = Some b ->
     fst r = w /\ fst (handleClose p onClose w) = w /\
     (key = js "`" -> ctrlKey = wantCtrl p ->
      snd r = if b && onClose then 1%nat else 0%nat)) /\
  snd (handleClose p onClose w) = (if onClose then 1%nat else 0%nat) /\
  pos (fst r) = pos w /\ size (fst r) = size w /\
  dragState (fst r) = dragState w.
Proof.
  intros r. subst r. unfold hotkeyHandler, handleClose, isOpenNow, isControlled.
  split; [|split; [|split]].
  - case_bool_decide as Hk; simpl.
    + destruct (eqb_spec ctrlKey (wantCtrl p)) as [Hc|Hc]; simpl;
        [intros _; now split|].
      intros [H|H]; contradiction.
    + intros [H|H]; contradiction.
  - intros Hp -> ->. rewrite Hp. rewrite bool_decide_eq_true_2 by reflexivity.
    rewrite eqb_reflx. simpl. rewrite negb_involutive.
    destruct w; now repeat split.
  - intros b Hp. rewrite Hp. split; [|split; [reflexivity|]].
    + case_bool_decide; destruct (eqb ctrlKey (wantCtrl p)); reflexivity.
    + intros -> ->. rewrite bool_decide_eq_true_2 by reflexivity.
      now rewrite eqb_reflx.
  - split; [reflexivity|].
    case_bool_decide; destruct (eqb ctrlKey (wantCtrl p)), (isOpen p);
      now repeat split.
Qed.

Lemma hotkey_and_close_witness :
  isOpenNow defaultProps
    (fst (hotkeyHandler defaultProps false (js "`") (wantCtrl defaultProps)
            (initWindow defaultProps)))
    = negb (isOpenNow defaultProps (initWindow defaultProps)).
Proof.
  apply (proj1 (proj2 (hotkey_and_close defaultProps false (js "`")
                         (wantCtrl defaultProps) (initWindow defaultProps))));
    reflexivity.
Defined.

(** ** Copying the scrollback *)

Lemma join_snoc sep (xs : list jsstring) x :
  xs <> [] -> join sep (xs ++ [x]) = join sep xs ++ sep ++ x.
Proof.
  induction xs as [|a xs IH]; [contradiction|]. intros _.
  destruct xs as [|b xs]; [reflexivity|].
  change (join sep ((a :: b :: xs) ++ [x]))
    with (a ++ sep ++ join sep ((b :: xs) ++ [x])).
  rewrite IH by discriminate.
  change (join sep (a :: b :: xs)) with (a ++ sep ++ join sep (b :: xs)).
  now rewrite <- !app_assoc.
Qed.

(** X25: copying hands over the scrollback as it is before the notice that
    the copy itself appends, joined by line feeds; it appends exactly one
    notice, whichever way the clipboard answers, and changes neither
    history, cursor nor theme. A second copy hands over the scrollback with
    the first notice as its last line: when the scrollback was not empty,
    that is the text of the first copy, a line feed and the first notice;
    when it was empty, the first copy hands over the empty text and the
    second the notice alone, without a line feed. *)
Theorem copy_appends_one_notice ok1 ok2 st :
  let c1 := copyAll ok1 st in
  let c2 := copyAll ok2 (snd c1) in
  fst c1 = join [10] (lines st) /\
  lines (snd c1) = lines st ++ [copy_notice ok1] /\
  fst c2 = join [10] (lines st ++ [copy_notice ok1]) /\
  (lines st <> [] -> fst c2 = fst c1 ++ [10] ++ copy_notice ok1) /\
  (lines st = [] -> fst c1 = [] /\ fst c2 = copy_notice ok1) /\
  lines (snd c2) = lines st ++ [copy_notice ok1; copy_notice ok2] /\
  history (snd c2) = history st /\ histIdx (snd c2) = histIdx st /\
  theme (snd c2) = theme st.
Proof.
  intros c1 c2. subst c1 c2. unfold copyAll. cbn [fst snd].
  rewrite !lines_appendLine.
  split; [reflexivity|]. split; [reflexivity|]. split; [reflexivity|].
  split; [intros Hne; now apply join_snoc|].
  split; [intros ->; now split|].
  rewrite <- app_assoc. now repeat split.
Qed.

Lemma copy_appends_one_notice_witness :
  fst (copyAll true (init defaultProps)) = [] /\
  fst (copyAll false (snd (copyAll true (init defaultProps))))
    = js "[copied scrollback to clipboard]".
Proof.
  exact (proj1 (proj2 (proj2 (proj2 (proj2
           (copy_appends_one_notice true false (init defaultProps))))))
         eq_refl).
Defined.

(** ** The history bound of the hook, over many submissions *)

(** X26: in the sibling hook, with a bound historyMax of two or more, a
    history within the bound stays within it whatever is pushed; at the
    bound, the oldest entry makes room for the new one. *)
Theorem hook_history_stays_bounded historyMax raws prev :
  (2 <= historyMax)%Z -> (Z.of_nat (length prev) <= historyMax)%Z ->
  (Z.of_nat (length (foldl (UseTerminal.push_history historyMax) prev raws))
     <= historyMax)%Z /\
  (forall raw, Z.of_nat (length prev) = historyMax ->
     UseTerminal.push_history historyMax prev raw = tail prev ++ [trim raw]).
Proof.
  intros Hm Hlen. split.
  - revert prev Hlen. induction raws as [|raw raws IH]; intros prev Hlen;
      [exact Hlen|].
    cbn [foldl]. apply IH. now apply hook_history_bounded.
  - intros raw Heq. unfold UseTerminal.push_history, UseTerminal.slice_from.
    cbv zeta.
    replace (- historyMax + 1 <? 0)%Z with true by (symmetry; apply Z.ltb_lt; lia).
    replace (Z.to_nat (Z.max (Z.of_nat (length prev) + (- historyMax + 1)) 0))
      with 1%nat by lia.
    now destruct prev.
Qed.

Lemma hook_history_stays_bounded_witness :
  (Z.of_nat (length (foldl (UseTerminal.push_history 3) []
                       [js "a"; js "b"; js "c"; js "d"])) <= 3)%Z.
Proof.
  apply (hook_history_stays_bounded 3 [js "a"; js "b"; js "c"; js "d"] []);
    simpl; lia.
Defined.
